(** * CFIFO: a circular-buffer FIFO with a stored last operation

    Shallow embedding of [fifo.c] ([FifoInit], [FifoPut], [FifoGet]) and the
    properties of the buffer: cursor bounds, the full/empty tests, the
    effect of each call, first-in-first-out order and wrap-around.  The
    demo around the buffer ([testFIFO], [main]) and the dumper of [dump.c]
    ([hexDump]) are embedded as well, with the text they print. *)

From Stdlib Require Import ZArith Lia.
From Stdlib.Strings Require Import Byte.
From stdpp Require Import base option list.

Local Open Scope Z_scope.

(** ** Data model *)

(** [struct FifoEntry]: [uint8_t ID], [char Name[NNAMESIZE]], [clock_t
    TimeStamp].  The buffer only ever copies an entry as a whole (struct
    assignment), so the fields are kept as plain values. *)
Record FifoEntry_t : Type := mkEntry {
  ID : Z;
  Name : list byte;
  TimeStamp : Z
}.

(** [struct Fifo].  [data] is the statically allocated array; the read and
    write pointers [pRd], [pWr] are kept as element offsets from [data]
    (so [pFifo->data] itself is offset [0] and [pFifo->data + NFIFOCAP] is
    offset [NFIFOCAP]); [fRd] is the stored last operation. *)
Record Fifo_t : Type := mkFifo {
  data : list FifoEntry_t;
  pRd : Z;
  pWr : Z;
  fRd : bool
}.

Definition NNAMESIZE : Z := 20.

(** The calls a client can make after [FifoInit], and what it observes. *)
Inductive op : Type :=
  | Enqueue (item : FifoEntry_t)
  | Dequeue.

Inductive event : Type :=
  | PutOk
  | PutFull
  | GetOk (item : FifoEntry_t)
  | GetEmpty.

Section Fifo.

(** [#define NFIFOCAP 4] in the source; the development is parametric in the
    capacity and instantiates it where a claim fixes it. *)
Variable NFIFOCAP : Z.

(** Dereferencing a pointer into [data].  An access outside the array is
    undefined behaviour in C: it has no result here ([None]). *)
Definition in_bounds (d : list FifoEntry_t) (p : Z) : bool :=
  (0 <=? p) && (p <? NFIFOCAP) && (p <? Z.of_nat (length d)).

Definition load (d : list FifoEntry_t) (p : Z) : option FifoEntry_t :=
  if in_bounds d p then d !! Z.to_nat p else None.

Definition store (d : list FifoEntry_t) (p : Z) (item : FifoEntry_t)
  : option (list FifoEntry_t) :=
  if in_bounds d p then Some (<[Z.to_nat p := item]> d) else None.

(** [if (p >= pFifo->data + NFIFOCAP) p = pFifo->data;] *)
Definition wrap (p : Z) : Z := if NFIFOCAP <=? p then 0 else p.

(** [bool FifoInit(Fifo_t *pFifo)].  [now] is the value returned by
    [clock()]; the local [defaultEntry] is built and never used. *)
Definition FifoInit (now : Z) (f : Fifo_t) : Fifo_t * bool :=
  let defaultEntry :=
    {| ID := 0;
       Name := [x44; x45; x46; x41; x55; x4c; x54] ++ replicate 13 x00;
       TimeStamp := now |} in
  let f1 := {| data := data f; pRd := 0; pWr := pWr f; fRd := fRd f |} in
  let f2 := {| data := data f1; pRd := pRd f1; pWr := 0; fRd := fRd f1 |} in
  let f3 := {| data := data f2; pRd := pRd f2; pWr := pWr f2; fRd := true |} in
  (f3, true).

(** [bool FifoPut(Fifo_t *pFifo, FifoEntry_t item)]. *)
Definition FifoPut (f : Fifo_t) (item : FifoEntry_t) : option (Fifo_t * bool) :=
  if negb (fRd f) && (pWr f =? pRd f) then Some (f, false)
  else
    d ← store (data f) (pWr f) item;
    Some ({| data := d; pRd := pRd f; pWr := wrap (pWr f + 1); fRd := false |},
          true).

(** [bool FifoGet(Fifo_t *pFifo, FifoEntry_t *pItem)].  [item] is the value
    [*pItem] holds before the call; the second component of the result is
    the value it holds after.  [pItem] points to storage of the caller's,
    outside the buffer. *)
Definition FifoGet (f : Fifo_t) (item : FifoEntry_t)
  : option (Fifo_t * FifoEntry_t * bool) :=
  if fRd f && (pWr f =? pRd f) then Some (f, item, false)
  else
    x ← load (data f) (pRd f);
    Some ({| data := data f; pRd := wrap (pRd f + 1); pWr := pWr f; fRd := true |},
          x, true).

(** One client call and the event it produces.  A dequeue reads into a
    local whose prior content is [scratch]. *)
Definition step (scratch : FifoEntry_t) (o : op) (f : Fifo_t)
  : option (Fifo_t * event) :=
  match o with
  | Enqueue item =>
      '(f', ok) ← FifoPut f item;
      Some (f', if ok : bool then PutOk else PutFull)
  | Dequeue =>
      '(f', x, ok) ← FifoGet f scratch;
      Some (f', if ok : bool then GetOk x else GetEmpty)
  end.

(** A sequence of calls, with the trace of what each reported. *)
Fixpoint run (scratch : FifoEntry_t) (ops : list op) (f : Fifo_t)
  : option (Fifo_t * list event) :=
  match ops with
  | [] => Some (f, [])
  | o :: ops' =>
      '(f1, ev) ← step scratch o f;
      '(f2, evs) ← run scratch ops' f1;
      Some (f2, ev :: evs)
  end.

(** The type invariant of [struct Fifo] once initialised: [data] has
    [NFIFOCAP] elements and both pointers point at one of them. *)
Definition wf (f : Fifo_t) : Prop :=
  Z.of_nat (length (data f)) = NFIFOCAP ∧
  0 ≤ pRd f < NFIFOCAP ∧ 0 ≤ pWr f < NFIFOCAP.

(** Representation of a queue [q] (oldest entry first) by a buffer: the
    entries of [q] sit in consecutive slots from [pRd] on, cyclically, the
    write pointer is just behind the last of them, and the stored last
    operation tells the empty buffer from the full one. *)
Definition rep (f : Fifo_t) (q : list FifoEntry_t) : Prop :=
  wf f ∧
  Z.of_nat (length q) ≤ NFIFOCAP ∧
  pWr f = (pRd f + Z.of_nat (length q)) mod NFIFOCAP ∧
  (fRd f = true → Z.of_nat (length q) < NFIFOCAP) ∧
  (fRd f = false → 0 < Z.of_nat (length q)) ∧
  ∀ (k : nat) x, q !! k = Some x →
    data f !! Z.to_nat ((pRd f + Z.of_nat k) mod NFIFOCAP) = Some x.

End Fifo.

(** Entries held after a trace: successful enqueues minus successful
    dequeues. *)
Definition delta (ev : event) : Z :=
  match ev with
  | PutOk => 1
  | GetOk _ => -1
  | PutFull | GetEmpty => 0
  end.

Fixpoint held (evs : list event) : Z :=
  match evs with
  | [] => 0
  | ev :: evs' => delta ev + held evs'
  end.

Fixpoint puts_ok (evs : list event) : Z :=
  match evs with
  | [] => 0
  | PutOk :: evs' => 1 + puts_ok evs'
  | _ :: evs' => puts_ok evs'
  end.

Definition is_failure (ev : event) : bool :=
  match ev with
  | PutFull | GetEmpty => true
  | _ => false
  end.

Definition got (ev : event) : option FifoEntry_t :=
  match ev with
  | GetOk x => Some x
  | _ => None
  end.

(** Enqueue-then-dequeue pairs, one per item, and the trace in which every
    one of these calls succeeds. *)
Fixpoint put_get_pairs (items : list FifoEntry_t) : list op :=
  match items with
  | [] => []
  | item :: items' => Enqueue item :: Dequeue :: put_get_pairs items'
  end.

Fixpoint put_get_trace (items : list FifoEntry_t) : list event :=
  match items with
  | [] => []
  | item :: items' => PutOk :: GetOk item :: put_get_trace items'
  end.

(** Sample values for the concrete instances below: an entry with a given
    id, and an uninitialised [struct Fifo] of capacity 4 whose pointers and
    flag hold arbitrary leftovers. *)
Definition sample_item (i : Z) : FifoEntry_t :=
  {| ID := i; Name := replicate (Z.to_nat NNAMESIZE) x00; TimeStamp := 10 * i |}.

Definition uninitialised : Fifo_t :=
  {| data := replicate 4 (sample_item 0); pRd := 7; pWr := -3; fRd := false |}.

Definition fresh : Fifo_t := (FifoInit 0 uninitialised).1.

(** ** A bounded queue, for comparison

    The queue a client has in mind: a list, oldest entry first, that takes
    an entry at the back while it has fewer than [cap] of them and gives
    the front entry while it has any. *)
Definition queue_step (cap : Z) (o : op) (q : list FifoEntry_t)
  : list FifoEntry_t * event :=
  match o with
  | Enqueue item =>
      if Z.of_nat (length q) <? cap then (q ++ [item], PutOk) else (q, PutFull)
  | Dequeue =>
      match q with
      | [] => ([], GetEmpty)
      | x :: q' => (q', GetOk x)
      end
  end.

Fixpoint queue_run (cap : Z) (ops : list op) (q : list FifoEntry_t)
  : list FifoEntry_t * list event :=
  match ops with
  | [] => (q, [])
  | o :: ops' =>
      let '(q1, ev) := queue_step cap o q in
      let '(q2, evs) := queue_run cap ops' q1 in
      (q2, ev :: evs)
  end.

(** The items of the enqueue calls that reported success, in call order. *)
Fixpoint accepted (ops : list op) (evs : list event) : list FifoEntry_t :=
  match ops, evs with
  | Enqueue item :: ops', PutOk :: evs' => item :: accepted ops' evs'
  | _ :: ops', _ :: evs' => accepted ops' evs'
  | _, _ => []
  end.

(** ** The C library calls of the demo and of the dumper *)

Definition byte_val (b : byte) : Z := Z.of_N (Byte.to_N b).

(** The string a [char] array holds: the bytes before its first NUL.
    An array without a NUL has none ([%s] or [strncpy] would read past its
    end). *)
Fixpoint c_string (buf : list byte) : option (list byte) :=
  match buf with
  | [] => None
  | c :: buf' =>
      if Byte.eqb c x00 then Some [] else (c ::.) <$> c_string buf'
  end.

(** [%d]: the decimal digits of a value, most significant first.  Ten
    digits cover every [int]. *)
Definition dec_digit (v : Z) : byte :=
  nth (Z.to_nat v) ["0"; "1"; "2"; "3"; "4"; "5"; "6"; "7"; "8"; "9"]%byte
    "0"%byte.

Fixpoint dec_digits (fuel : nat) (v : Z) : list byte :=
  match fuel with
  | O => []
  | S fuel' =>
      (if v <? 10 then [] else dec_digits fuel' (v / 10)) ++
      [dec_digit (v mod 10)]
  end.

Definition fmt_d (v : Z) : list byte :=
  if v <? 0 then "-"%byte :: dec_digits 10 (- v) else dec_digits 10 v.

(** [%0wX]: the upper-case hexadecimal digits of an [unsigned int], padded
    with zeros on the left to at least [w] characters. *)
Definition hex_digit (v : Z) : byte :=
  nth (Z.to_nat v)
    ["0"; "1"; "2"; "3"; "4"; "5"; "6"; "7"; "8"; "9";
     "A"; "B"; "C"; "D"; "E"; "F"]%byte "0"%byte.

Fixpoint hex_digits (fuel : nat) (v : Z) : list byte :=
  match fuel with
  | O => []
  | S fuel' =>
      (if v <? 16 then [] else hex_digits fuel' (v / 16)) ++
      [hex_digit (v mod 16)]
  end.

Definition fmt_0X (w : nat) (v : Z) : list byte :=
  let ds := hex_digits 8 v in
  replicate (w - length ds) "0"%byte ++ ds.

(** [snprintf(buf, size, ...)], [text] being the formatted text: at most
    [size - 1] of its characters and a terminating NUL go to the start of
    [buf]; nothing is written when [size] is 0.  [size] must not exceed
    the array. *)
Definition snprintf (buf : list byte) (size : Z) (text : list byte)
  : option (list byte) :=
  if size =? 0 then Some buf
  else if (0 <? size) && (size <=? Z.of_nat (length buf)) then
    let written := take (Z.to_nat (size - 1)) text ++ [x00] in
    Some (written ++ drop (length written) buf)
  else None.

(** [strncpy(dest, src, n)]: the characters of [src] up to its NUL, at most
    [n] of them, and NULs for the rest of the [n] bytes. *)
Fixpoint strncpy_bytes (src : list byte) (n : nat) : option (list byte) :=
  match n with
  | O => Some []
  | S n' =>
      match src with
      | [] => None
      | c :: src' =>
          if Byte.eqb c x00 then Some (replicate (S n') x00)
          else (c ::.) <$> strncpy_bytes src' n'
      end
  end.

Definition strncpy (dest src : list byte) (n : Z) : option (list byte) :=
  if (0 <=? n) && (n <=? Z.of_nat (length dest)) then
    copied ← strncpy_bytes src (Z.to_nat n);
    Some (copied ++ drop (Z.to_nat n) dest)
  else None.

(** ** The dumper: [hexDump]

    [void hexDump(const char *desc, void *addr, uint32_t len)].  [desc] is
    the string passed, if any; [pc] is the memory readable from [addr] on;
    [buff0] is what the uninitialised local [buff[17]] happens to hold.
    The result is the text written to standard output; there is none when
    the function reads outside [pc] or finds no NUL in [buff]. *)

(** The character kept for the ASCII column. *)
Definition dump_char (b : byte) : byte :=
  if (byte_val b <? 0x20) || (0x7e <? byte_val b) then "."%byte else b.

(** One iteration of the [for] loop, on [buff] and the output so far. *)
Definition dump_byte (pc : list byte) (i : Z) (st : list byte * list byte)
  : option (list byte * list byte) :=
  let '(buff, out) := st in
  out1 ← (if i mod 16 =? 0 then
            out0 ← (if negb (i =? 0) then
                      text ← c_string buff;
                      Some (out ++ [" "; " "]%byte ++ text ++ [x0a])
                    else Some out);
            Some (out0 ++ [" "; " "]%byte ++ fmt_0X 4 i ++ [" "]%byte)
          else Some out);
  b ← pc !! Z.to_nat i;
  let out2 := out1 ++ " "%byte :: fmt_0X 2 (byte_val b) in
  let buff1 := <[Z.to_nat (i mod 16) := dump_char b]> buff in
  let buff2 := <[Z.to_nat (i mod 16 + 1) := x00]> buff1 in
  Some (buff2, out2).

(** [for (i = 0; i < len; i++)]: [n] iterations from [i] on. *)
Fixpoint dump_loop (pc : list byte) (n : nat) (i : Z)
    (st : list byte * list byte) : option (list byte * list byte) :=
  match n with
  | O => Some st
  | S n' => st' ← dump_byte pc i st; dump_loop pc n' (i + 1) st'
  end.

(** [while ((i % 16) != 0) { printf("   "); i++; }] with [uint32_t i]; the
    loop ends within 15 iterations. *)
Fixpoint dump_pad (fuel : nat) (i : Z) (out : list byte) : list byte :=
  match fuel with
  | O => out
  | S fuel' =>
      if i mod 16 =? 0 then out
      else dump_pad fuel' ((i + 1) mod 2 ^ 32) (out ++ [" "; " "; " "]%byte)
  end.

Definition hexDump (desc : option (list byte)) (pc : list byte) (len : Z)
    (buff0 : list byte) : option (list byte) :=
  let out0 := match desc with Some d => d ++ [x0a] | None => [] end in
  '(buff, out1) ← dump_loop pc (Z.to_nat len) 0 (buff0, out0);
  let out2 := dump_pad 16 len out1 in
  text ← c_string buff;
  Some (out2 ++ [" "; " "]%byte ++ text ++ [x0a]).

(** The line for the description, when one is given. *)
Definition dump_head (desc : option (list byte)) : list byte :=
  match desc with
  | Some d => d ++ [x0a]
  | None => []
  end.

(** The dump as a reader sees it, row by row: the offset, the bytes of the
    row in hexadecimal, blanks for the bytes a short last row lacks, the
    ASCII column. *)
Definition dump_hex (row : list byte) : list byte :=
  row ≫= λ b, " "%byte :: fmt_0X 2 (byte_val b).

Definition dump_row_start (offset : Z) (row : list byte) : list byte :=
  [" "; " "]%byte ++ fmt_0X 4 offset ++ [" "]%byte ++ dump_hex row.

Definition dump_row (offset : Z) (row : list byte) : list byte :=
  dump_row_start offset row ++
  replicate (3 * (16 - length row)) " "%byte ++
  [" "; " "]%byte ++ (dump_char <$> row) ++ [x0a].

Definition dump_rows (data : list byte) : list byte :=
  seqZ 0 ((Z.of_nat (length data) + 15) / 16) ≫= λ r,
    dump_row (16 * r) (take 16 (drop (Z.to_nat (16 * r)) data)).

(** What holds between two iterations of the [for] loop, [16 * r + k]
    bytes having been handled, [k] of them in the current row [r]: the rows
    before [r] are printed in full, row [r] is printed up to its last
    handled byte, and [buff] holds the ASCII column of row [r] so far as a
    string. *)
Definition dump_inv (head pc : list byte) (r k : Z)
    (st : list byte * list byte) : Prop :=
  let cur := take (Z.to_nat k) (drop (Z.to_nat (16 * r)) pc) in
  0 ≤ r ∧ 1 ≤ k ≤ 16 ∧ 16 * r + k ≤ Z.of_nat (length pc) ∧
  length st.1 = 17%nat ∧
  (∃ rest, st.1 = (dump_char <$> cur) ++ x00 :: rest) ∧
  st.2 = head ++
         (seqZ 0 r ≫= λ j,
            dump_row (16 * j) (take 16 (drop (Z.to_nat (16 * j)) pc))) ++
         dump_row_start (16 * r) cur.

(** A text that a [char] array can hold as a string. *)
Definition no_nul (text : list byte) : Prop :=
  Forall (λ c, Byte.eqb c x00 = false) text.

(** ** The demo: [testFIFO] and [main] *)

(** What the demo prints, one constructor per [printf] (or [hexDump]) call
    of the source, carrying the values printed.  [%s] of a name is the
    string the array holds.  [SayDump] stands for the [hexDump] of the bytes
    of the [struct Fifo], whose layout in memory is not modelled; it carries
    the description passed and the buffer dumped. *)
Inductive output : Type :=
  | SayBanner
  | SayFifoSize
  | SayTimestamp (eIdx ts : Z)
  | SayEntry (eIdx id : Z) (name : list byte) (ts : Z)
  | SayPut (ok : bool)
  | SayDump (desc : list byte) (f : Fifo_t)
  | SayNewline
  | SayGot (id : Z) (name : list byte) (ts : Z)
  | SayNoGet.

(** The locals of [testFIFO] that live across its loops, the number of
    [clock()] calls made so far and the output so far. *)
Record test_state : Type := mkTest {
  t_fifo : Fifo_t;
  t_clock : nat;
  t_out : list output
}.

(** [#define NMSGLEN 40] and ["[DEBUG]: FIFO (start address %08X) dump"];
    [addr] is the value the [%08X] conversion prints for [&fifo]. *)
Definition NMSGLEN : Z := 40.

Definition dump_title_text (addr : Z) : list byte :=
  ["["; "D"; "E"; "B"; "U"; "G"; "]"; ":"; " "; "F"; "I"; "F"; "O"; " ";
   "("; "s"; "t"; "a"; "r"; "t"; " "; "a"; "d"; "d"; "r"; "e"; "s"; "s";
   " "]%byte ++ fmt_0X 8 addr ++ [")"; " "; "d"; "u"; "m"; "p"]%byte.

(** ["( entry [%d] )"] *)
Definition entry_name_text (eIdx : Z) : list byte :=
  ["("; " "; "e"; "n"; "t"; "r"; "y"; " "; "["]%byte ++ fmt_d eIdx ++
  ["]"; " "; ")"]%byte.

Section Demo.

Variable NFIFOCAP : Z.
Variable NITEMS : Z.

(** The surroundings of a run: the readings of [clock()], call by call,
    what the uninitialised locals happen to hold ([fifo], [msg], and per
    iteration [eName], [item] and [e]), and the address of [fifo] as
    [%08X] prints it. *)
Variable clk : nat → Z.
Variable fifo0 : Fifo_t.
Variable eName0 : Z → list byte.
Variable item0 : Z → FifoEntry_t.
Variable e0 : Z → FifoEntry_t.
Variable msg0 : list byte.
Variable fifo_addr : Z.

(** [for (idx = 0; idx < NITEMS; idx++)] with [uint8_t idx].  The counter
    wraps at 256; [fuel] bounds the number of iterations looked at. *)
Fixpoint for_idx (fuel : nat) (body : Z → test_state → option test_state)
    (idx : Z) (s : test_state) : option test_state :=
  match fuel with
  | O => None
  | S fuel' =>
      if idx <? NITEMS then
        s' ← body idx s;
        for_idx fuel' body ((idx + 1) mod 256) s'
      else Some s
  end.

(** Body of the first loop: build an entry and put it. *)
Definition put_body (tick0 : Z) (idx : Z) (s : test_state)
  : option test_state :=
  let eIdx := (idx + 1) mod 256 in
  eName ← snprintf (eName0 idx) (NNAMESIZE - 1) (entry_name_text eIdx);
  name ← strncpy (Name (item0 idx)) eName NNAMESIZE;
  let item :=
    {| ID := eIdx; Name := name; TimeStamp := clk (t_clock s) - tick0 |} in
  shown ← c_string (Name item);
  '(f, ok) ← FifoPut NFIFOCAP (t_fifo s) item;
  Some {| t_fifo := f;
          t_clock := S (t_clock s);
          t_out := t_out s ++
                   [SayTimestamp eIdx (TimeStamp item);
                    SayEntry eIdx (ID item) shown (TimeStamp item);
                    SayPut ok] |}.

(** Body of the second loop: get an entry and print it. *)
Definition get_body (idx : Z) (s : test_state) : option test_state :=
  '(f, e, ok) ← FifoGet NFIFOCAP (t_fifo s) (e0 idx);
  if ok : bool then
    shown ← c_string (Name e);
    Some {| t_fifo := f; t_clock := t_clock s;
            t_out := t_out s ++ [SayGot (ID e) shown (TimeStamp e)] |}
  else
    Some {| t_fifo := f; t_clock := t_clock s;
            t_out := t_out s ++ [SayNoGet] |}.

(** [bool testFIFO(void)].  The function ends without a [return]; what it
    yields here is its output. *)
Definition testFIFO (fuel : nat) : option (list output) :=
  let tick0 := clk 0 in
  let '(fifo, _) := FifoInit (clk 1) fifo0 in
  let s0 := {| t_fifo := fifo; t_clock := 2; t_out := [SayFifoSize] |} in
  s1 ← for_idx fuel (put_body tick0) 0 s0;
  msg ← snprintf msg0 (NMSGLEN - 1) (dump_title_text fifo_addr);
  desc ← c_string msg;
  let s2 := {| t_fifo := t_fifo s1; t_clock := t_clock s1;
               t_out := t_out s1 ++ [SayDump desc (t_fifo s1); SayNewline] |} in
  s3 ← for_idx fuel get_body 0 s2;
  Some (t_out s3).

(** [int main(void)]: the banner, the test, and exit status 0. *)
Definition main (fuel : nat) : option (list output * Z) :=
  outs ← testFIFO fuel;
  Some (SayBanner :: outs, 0).

End Demo.







Definition leftover (n : nat) : list byte := replicate n xff.

Definition sample_region : list byte :=
  ["a"; " "; "c"; "h"; "a"; "r"; " "; "s"; "t"; "r"; "i"; "n"; "g"; " ";
   "g"; "r"; "e"; "a"; "t"; "e"; "r"; " "; "t"; "h"; "a"; "n"; " "; "1";
   "6"; " "; "c"; "h"; "a"; "r"; "s"]%byte ++ [x00; x7f; x0a].

Definition sample_ops : list op :=
  [Enqueue (sample_item 1); Enqueue (sample_item 2); Dequeue;
   Enqueue (sample_item 3); Enqueue (sample_item 4); Enqueue (sample_item 5);
   Enqueue (sample_item 6); Dequeue; Dequeue; Dequeue; Dequeue; Dequeue].

(** ** Arithmetic of the cursors *)

Section Cursor.

Variable n : Z.

Lemma mod_two_spans (x : Z) :
  0 ≤ x < 2 * n → x mod n = if x <? n then x else x - n.
Proof.
  intros Hx. destruct (Z.ltb_spec x n) as [Hlt | Hge].
  - apply Z.mod_small. lia.
  - replace x with ((x - n) + 1 * n) at 1 by lia.
    rewrite Z_mod_plus_full. apply Z.mod_small. lia.
Qed.

Lemma wrap_succ (p : Z) : 0 ≤ p < n → wrap n (p + 1) = (p + 1) mod n.
Proof.
  intros Hp. unfold wrap. rewrite mod_two_spans by lia.
  destruct (Z.leb_spec n (p + 1)), (Z.ltb_spec (p + 1) n); lia.
Qed.

Lemma wrap_bounds (p : Z) : 0 ≤ p < n → 0 ≤ wrap n (p + 1) < n.
Proof.
  intros Hp. unfold wrap. destruct (Z.leb_spec n (p + 1)); lia.
Qed.

Lemma slot_apart (r i j : Z) :
  0 ≤ r < n → 0 ≤ i < j → j < n → (r + i) mod n ≠ (r + j) mod n.
Proof.
  intros Hr Hi Hj. rewrite !mod_two_spans by lia.
  destruct (Z.ltb_spec (r + i) n), (Z.ltb_spec (r + j) n); lia.
Qed.

Lemma slot_back (r k : Z) :
  0 ≤ r < n → 0 ≤ k ≤ n → (r + k) mod n = r → k = 0 ∨ k = n.
Proof.
  intros Hr Hk. rewrite mod_two_spans by lia.
  destruct (Z.ltb_spec (r + k) n); lia.
Qed.

Lemma slot_distance (r k : Z) :
  0 ≤ r < n → 0 ≤ k < n → ((r + k) mod n - r + n) mod n = k.
Proof.
  intros Hr Hk. rewrite (mod_two_spans (r + k)) by lia.
  destruct (Z.ltb_spec (r + k) n); rewrite mod_two_spans by lia.
  - destruct (Z.ltb_spec (r + k - r + n) n); lia.
  - destruct (Z.ltb_spec (r + k - n - r + n) n); lia.
Qed.

End Cursor.

(** ** The buffer represents a queue *)

Section Properties.

Variable NFIFOCAP : Z.
Hypothesis NFIFOCAP_pos : 0 < NFIFOCAP.

Lemma in_bounds_wf (f : Fifo_t) (p : Z) :
  wf NFIFOCAP f → 0 ≤ p < NFIFOCAP → in_bounds NFIFOCAP (data f) p = true.
Proof.
  intros (Hlen & _) Hp. unfold in_bounds.
  rewrite !andb_true_iff, Z.leb_le, !Z.ltb_lt. lia.
Qed.

Lemma in_bounds_inv (d : list FifoEntry_t) (p : Z) :
  in_bounds NFIFOCAP d p = true →
  0 ≤ p < NFIFOCAP ∧ (Z.to_nat p < length d)%nat.
Proof.
  unfold in_bounds. rewrite !andb_true_iff, Z.leb_le, !Z.ltb_lt. lia.
Qed.

Lemma rep_init (now : Z) (f0 : Fifo_t) :
  Z.of_nat (length (data f0)) = NFIFOCAP →
  rep NFIFOCAP (FifoInit now f0).1 [].
Proof.
  intros Hlen. unfold rep, wf; simpl.
  rewrite Z.add_0_r, Z.mod_small by lia.
  repeat split; try lia; try done.
Qed.


Lemma FifoPut_full (f : Fifo_t) (q : list FifoEntry_t) (item : FifoEntry_t) :
  rep NFIFOCAP f q → Z.of_nat (length q) = NFIFOCAP →
  FifoPut NFIFOCAP f item = Some (f, false).
Proof.
  intros (Hwf & Hle & Hw & Ht & Hf & Hq) Hlen. unfold FifoPut.
  destruct (fRd f) eqn:Hflag; [specialize (Ht eq_refl); lia |].
  destruct Hwf as (_ & Hr & _).
  rewrite Hlen, mod_two_spans in Hw by lia.
  destruct (Z.ltb_spec (pRd f + NFIFOCAP) NFIFOCAP); [lia |].
  simpl. replace (pWr f =? pRd f) with true; [done |].
  symmetry. apply Z.eqb_eq. lia.
Qed.

Lemma FifoPut_room (f : Fifo_t) (q : list FifoEntry_t) (item : FifoEntry_t) :
  rep NFIFOCAP f q → Z.of_nat (length q) < NFIFOCAP →
  ∃ f', FifoPut NFIFOCAP f item = Some (f', true) ∧
        rep NFIFOCAP f' (q ++ [item]).
Proof.
  intros (Hwf & Hle & Hw & Ht & Hf & Hq) Hlen.
  pose proof Hwf as (Hd & Hr & Hwr).
  assert (Hguard : negb (fRd f) && (pWr f =? pRd f) = false).
  { destruct (fRd f) eqn:Hflag; [done |]. simpl. apply Z.eqb_neq.
    intros Heq. rewrite Heq in Hw. symmetry in Hw.
    apply slot_back in Hw; [| lia ..]. specialize (Hf eq_refl). lia. }
  unfold FifoPut, store. rewrite Hguard, in_bounds_wf by done. simpl.
  eexists; split; [reflexivity |].
  unfold rep, wf; simpl. rewrite length_insert, length_app; simpl.
  pose proof (wrap_bounds NFIFOCAP (pWr f) Hwr).
  repeat split; try lia.
  - rewrite wrap_succ, Hw, Zplus_mod_idemp_l by lia. f_equal. lia.
  - intros k x Hk.
    destruct (decide (k < length q)%nat) as [Hlt | Hge].
    + rewrite lookup_app_l in Hk by done.
      rewrite list_lookup_insert_ne; [by apply Hq |].
      rewrite Hw.
      pose proof (slot_apart NFIFOCAP (pRd f) (Z.of_nat k)
                    (Z.of_nat (length q))) as Hne.
      pose proof (Z.mod_pos_bound (pRd f + Z.of_nat k) NFIFOCAP).
      pose proof (Z.mod_pos_bound (pRd f + Z.of_nat (length q)) NFIFOCAP).
      lia.
    + rewrite lookup_app_r in Hk by lia.
      destruct (k - length q)%nat as [| m] eqn:Hm; simpl in Hk; [| done].
      injection Hk as <-.
      replace k with (length q) by lia. rewrite <- Hw.
      apply list_lookup_insert_eq. lia.
Qed.

Lemma FifoGet_empty (f : Fifo_t) (item : FifoEntry_t) :
  rep NFIFOCAP f [] → FifoGet NFIFOCAP f item = Some (f, item, false).
Proof.
  intros (Hwf & Hle & Hw & Ht & Hf & Hq). simpl in *. unfold FifoGet.
  destruct (fRd f) eqn:Hflag; [| specialize (Hf eq_refl); lia].
  destruct Hwf as (_ & Hr & _).
  rewrite Z.add_0_r, Z.mod_small in Hw by lia.
  simpl. replace (pWr f =? pRd f) with true; [done |].
  symmetry. by apply Z.eqb_eq.
Qed.

Lemma FifoGet_some (f : Fifo_t) (x : FifoEntry_t) (q : list FifoEntry_t)
    (item : FifoEntry_t) :
  rep NFIFOCAP f (x :: q) →
  ∃ f', FifoGet NFIFOCAP f item = Some (f', x, true) ∧ rep NFIFOCAP f' q.
Proof.
  intros (Hwf & Hle & Hw & Ht & Hf & Hq). simpl length in *.
  pose proof Hwf as (Hd & Hr & Hwr).
  assert (Hguard : fRd f && (pWr f =? pRd f) = false).
  { destruct (fRd f) eqn:Hflag; [| done]. simpl. apply Z.eqb_neq.
    intros Heq. rewrite Heq in Hw. symmetry in Hw.
    apply slot_back in Hw; [| lia ..]. specialize (Ht eq_refl). lia. }
  assert (Hhead : data f !! Z.to_nat (pRd f) = Some x).
  { specialize (Hq 0%nat x eq_refl). simpl in Hq.
    by rewrite Z.add_0_r, Z.mod_small in Hq by lia. }
  unfold FifoGet, load. rewrite Hguard, in_bounds_wf, Hhead by done. simpl.
  eexists; split; [reflexivity |].
  unfold rep, wf; simpl.
  pose proof (wrap_bounds NFIFOCAP (pRd f) Hr).
  repeat split; try lia.
  - rewrite wrap_succ, Hw, Zplus_mod_idemp_l by lia. f_equal. lia.
  - intros k y Hk. specialize (Hq (S k) y Hk).
    rewrite wrap_succ, Zplus_mod_idemp_l by lia.
    rewrite <- Hq. do 3 f_equal. lia.
Qed.

(** In a well-formed buffer neither call steps outside [data]. *)
Lemma FifoPut_wf (f : Fifo_t) (item : FifoEntry_t) :
  wf NFIFOCAP f →
  ∃ f' ok, FifoPut NFIFOCAP f item = Some (f', ok) ∧ wf NFIFOCAP f' ∧
           pRd f' = pRd f ∧
           pWr f' = (pWr f + (if ok : bool then 1 else 0)) mod NFIFOCAP.
Proof.
  intros Hwf. pose proof Hwf as (Hd & Hr & Hw). unfold FifoPut, store.
  destruct (negb (fRd f) && (pWr f =? pRd f)).
  - exists f, false. rewrite Z.add_0_r, Z.mod_small by lia. done.
  - rewrite in_bounds_wf by done. simpl. do 2 eexists.
    split; [reflexivity |]. unfold wf; simpl. rewrite length_insert.
    pose proof (wrap_bounds NFIFOCAP (pWr f) Hw).
    repeat split; try lia. apply wrap_succ; lia.
Qed.

Lemma FifoGet_wf (f : Fifo_t) (item : FifoEntry_t) :
  wf NFIFOCAP f →
  ∃ f' x ok, FifoGet NFIFOCAP f item = Some (f', x, ok) ∧ wf NFIFOCAP f' ∧
             pWr f' = pWr f.
Proof.
  intros Hwf. pose proof Hwf as (Hd & Hr & Hw). unfold FifoGet, load.
  destruct (fRd f && (pWr f =? pRd f)).
  - by exists f, item, false.
  - rewrite in_bounds_wf by done.
    destruct (lookup_lt_is_Some_2 (data f) (Z.to_nat (pRd f))) as [x Hx];
      [lia |].
    rewrite Hx. simpl. do 3 eexists. split; [reflexivity |].
    unfold wf; simpl. pose proof (wrap_bounds NFIFOCAP (pRd f) Hr).
    repeat split; lia.
Qed.

Lemma step_wf (scratch : FifoEntry_t) (o : op) (f : Fifo_t) :
  wf NFIFOCAP f →
  ∃ f' ev, step NFIFOCAP scratch o f = Some (f', ev) ∧ wf NFIFOCAP f' ∧
           pWr f' = (pWr f + puts_ok [ev]) mod NFIFOCAP.
Proof.
  intros Hwf. destruct o as [item |]; simpl.
  - destruct (FifoPut_wf f item Hwf) as (f' & ok & -> & Hwf' & _ & Hw).
    simpl. do 2 eexists. split; [reflexivity |]. split; [done |].
    by destruct ok.
  - destruct (FifoGet_wf f scratch Hwf) as (f' & x & ok & -> & Hwf' & Hw).
    simpl. do 2 eexists. split; [reflexivity |]. split; [done |].
    destruct Hwf' as (_ & _ & Hb).
    destruct ok; simpl; rewrite Z.add_0_r, Z.mod_small; lia.
Qed.

Lemma run_wf (scratch : FifoEntry_t) (ops : list op) (f : Fifo_t) :
  wf NFIFOCAP f →
  ∃ f' evs, run NFIFOCAP scratch ops f = Some (f', evs) ∧ wf NFIFOCAP f' ∧
            pWr f' = (pWr f + puts_ok evs) mod NFIFOCAP.
Proof.
  revert f. induction ops as [| o ops IH]; intros f Hwf.
  - exists f, []. simpl. pose proof Hwf as (_ & _ & Hb).
    by rewrite Z.add_0_r, Z.mod_small by lia.
  - destruct (step_wf scratch o f Hwf) as (f1 & ev & Hstep & Hwf1 & Hw1).
    destruct (IH f1 Hwf1) as (f2 & evs & Hrun & Hwf2 & Hw2).
    exists f2, (ev :: evs). simpl run. rewrite Hstep. simpl. rewrite Hrun.
    simpl. split; [done |]. split; [done |].
    rewrite Hw2, Hw1, Zplus_mod_idemp_l. f_equal.
    simpl. destruct ev; lia.
Qed.

(** Each call moves the represented queue as a queue should. *)
Lemma step_rep (scratch : FifoEntry_t) (o : op) (f : Fifo_t)
    (q : list FifoEntry_t) :
  rep NFIFOCAP f q →
  ∃ f' ev q', step NFIFOCAP scratch o f = Some (f', ev) ∧
              rep NFIFOCAP f' q' ∧
              Z.of_nat (length q') = Z.of_nat (length q) + delta ev.
Proof.
  intros Hrep. destruct o as [item |]; simpl.
  - destruct (decide (Z.of_nat (length q) < NFIFOCAP)) as [Hroom | Hfull].
    + destruct (FifoPut_room f q item Hrep Hroom) as (f' & -> & Hrep').
      exists f', PutOk, (q ++ [item]). simpl.
      rewrite length_app. simpl. do 2 (split; [done |]). lia.
    + assert (Hlen : Z.of_nat (length q) = NFIFOCAP).
      { destruct Hrep as (_ & Hle & _). lia. }
      rewrite (FifoPut_full f q item Hrep Hlen).
      exists f, PutFull, q. simpl. do 2 (split; [done |]). lia.
  - destruct q as [| x q].
    + rewrite (FifoGet_empty f scratch Hrep).
      exists f, GetEmpty, []. by simpl.
    + destruct (FifoGet_some f x q scratch Hrep) as (f' & -> & Hrep').
      exists f', (GetOk x), q. simpl. do 2 (split; [done |]). lia.
Qed.

Lemma run_rep (scratch : FifoEntry_t) (ops : list op) (f : Fifo_t)
    (q : list FifoEntry_t) :
  rep NFIFOCAP f q →
  ∃ f' evs q', run NFIFOCAP scratch ops f = Some (f', evs) ∧
               rep NFIFOCAP f' q' ∧
               Z.of_nat (length q') = Z.of_nat (length q) + held evs.
Proof.
  revert f q. induction ops as [| o ops IH]; intros f q Hrep.
  - exists f, [], q. simpl. do 2 (split; [done |]). lia.
  - destruct (step_rep scratch o f q Hrep) as (f1 & ev & q1 & Hstep & Hrep1 & Hl1).
    destruct (IH f1 q1 Hrep1) as (f2 & evs & q2 & Hrun & Hrep2 & Hl2).
    exists f2, (ev :: evs), q2. simpl run. rewrite Hstep. simpl.
    rewrite Hrun. simpl. do 2 (split; [done |]). lia.
Qed.

Lemma run_app (scratch : FifoEntry_t) (ops1 ops2 : list op) (f : Fifo_t) :
  run NFIFOCAP scratch (ops1 ++ ops2) f =
  '(f1, evs1) ← run NFIFOCAP scratch ops1 f;
  '(f2, evs2) ← run NFIFOCAP scratch ops2 f1;
  Some (f2, evs1 ++ evs2).
Proof.
  revert f. induction ops1 as [| o ops1 IH]; intros f; simpl.
  - by destruct (run NFIFOCAP scratch ops2 f) as [[f2 evs2] |].
  - destruct (step NFIFOCAP scratch o f) as [[f1 ev] |]; simpl; [| done].
    rewrite IH.
    destruct (run NFIFOCAP scratch ops1 f1) as [[f2 evs1] |]; simpl; [| done].
    by destruct (run NFIFOCAP scratch ops2 f2) as [[f3 evs2] |].
Qed.

(** Filling: enqueues that fit all succeed and queue up behind [q]. *)
Lemma run_enqueues (scratch : FifoEntry_t) (items : list FifoEntry_t)
    (f : Fifo_t) (q : list FifoEntry_t) :
  rep NFIFOCAP f q →
  Z.of_nat (length q) + Z.of_nat (length items) ≤ NFIFOCAP →
  ∃ f', run NFIFOCAP scratch (map Enqueue items) f =
          Some (f', replicate (length items) PutOk) ∧
        rep NFIFOCAP f' (q ++ items).
Proof.
  revert f q. induction items as [| item items IH]; intros f q Hrep Hfit.
  - exists f. simpl. by rewrite app_nil_r.
  - simpl in Hfit.
    destruct (FifoPut_room f q item Hrep) as (f1 & Hput & Hrep1); [lia |].
    destruct (IH f1 (q ++ [item]) Hrep1) as (f2 & Hrun & Hrep2).
    { rewrite length_app. simpl. lia. }
    exists f2. simpl. rewrite Hput. simpl. rewrite Hrun. simpl.
    by rewrite <- app_assoc in Hrep2.
Qed.

(** Draining: as many dequeues as entries held return them oldest first. *)
Lemma run_dequeues (scratch : FifoEntry_t) (f : Fifo_t)
    (q : list FifoEntry_t) :
  rep NFIFOCAP f q →
  ∃ f', run NFIFOCAP scratch (replicate (length q) Dequeue) f =
          Some (f', map GetOk q) ∧
        rep NFIFOCAP f' [].
Proof.
  revert f. induction q as [| x q IH]; intros f Hrep.
  - by exists f.
  - destruct (FifoGet_some f x q scratch Hrep) as (f1 & Hget & Hrep1).
    destruct (IH f1 Hrep1) as (f2 & Hrun & Hrep2).
    exists f2. simpl. rewrite Hget. simpl. rewrite Hrun. done.
Qed.

(** An enqueue directly followed by a dequeue on an empty buffer hands the
    entry straight back, and the buffer is empty again. *)
Lemma run_pairs (scratch : FifoEntry_t) (items : list FifoEntry_t)
    (f : Fifo_t) :
  rep NFIFOCAP f [] →
  ∃ f', run NFIFOCAP scratch (put_get_pairs items) f = Some (f', put_get_trace items) ∧
        rep NFIFOCAP f' [].
Proof.
  revert f. induction items as [| item items IH]; intros f Hrep.
  - by exists f.
  - destruct (FifoPut_room f [] item Hrep) as (f1 & Hput & Hrep1);
      [simpl; lia |].
    destruct (FifoGet_some f1 item [] scratch Hrep1) as (f2 & Hget & Hrep2).
    destruct (IH f2 Hrep2) as (f3 & Hrun & Hrep3).
    exists f3. simpl. rewrite Hput. simpl. rewrite Hget. simpl.
    rewrite Hrun. done.
Qed.

(** What a call that reported success must have done. *)
Lemma FifoPut_true_inv (f f' : Fifo_t) (item : FifoEntry_t) :
  FifoPut NFIFOCAP f item = Some (f', true) →
  in_bounds NFIFOCAP (data f) (pWr f) = true ∧
  f' = {| data := <[Z.to_nat (pWr f) := item]> (data f); pRd := pRd f;
          pWr := wrap NFIFOCAP (pWr f + 1); fRd := false |}.
Proof.
  unfold FifoPut, store.
  destruct (negb (fRd f) && (pWr f =? pRd f)); [done |].
  destruct (in_bounds NFIFOCAP (data f) (pWr f)); simpl; [| done].
  by intros [= <-].
Qed.

Lemma FifoGet_true_inv (f f' : Fifo_t) (item x : FifoEntry_t) :
  FifoGet NFIFOCAP f item = Some (f', x, true) →
  in_bounds NFIFOCAP (data f) (pRd f) = true ∧
  data f !! Z.to_nat (pRd f) = Some x ∧
  f' = {| data := data f; pRd := wrap NFIFOCAP (pRd f + 1); pWr := pWr f;
          fRd := true |}.
Proof.
  unfold FifoGet, load.
  destruct (fRd f && (pWr f =? pRd f)); [done |].
  destruct (in_bounds NFIFOCAP (data f) (pRd f)); simpl; [| done].
  destruct (data f !! Z.to_nat (pRd f)) as [y |]; simpl; [| done].
  by intros [= <- <-].
Qed.

(** What a call that reported failure must have seen. *)
Lemma FifoPut_false_inv (f f' : Fifo_t) (item : FifoEntry_t) :
  FifoPut NFIFOCAP f item = Some (f', false) →
  f' = f ∧ fRd f = false ∧ pRd f = pWr f.
Proof.
  unfold FifoPut.
  destruct (negb (fRd f) && (pWr f =? pRd f)) eqn:Hguard.
  - intros [= <-]. apply andb_true_iff in Hguard as [Hflag Heq].
    apply negb_true_iff in Hflag. apply Z.eqb_eq in Heq. done.
  - destruct (store NFIFOCAP (data f) (pWr f) item); simpl; done.
Qed.

Lemma FifoGet_false_inv (f f' : Fifo_t) (item x : FifoEntry_t) :
  FifoGet NFIFOCAP f item = Some (f', x, false) →
  f' = f ∧ x = item ∧ fRd f = true ∧ pRd f = pWr f.
Proof.
  unfold FifoGet.
  destruct (fRd f && (pWr f =? pRd f)) eqn:Hguard.
  - intros [= <- <-]. apply andb_true_iff in Hguard as [Hflag Heq].
    apply Z.eqb_eq in Heq. done.
  - destruct (load NFIFOCAP (data f) (pRd f)); simpl; done.
Qed.

(** The stored last operation alone lets the opposite call through. *)
Lemma FifoGet_after_write (f : Fifo_t) (item : FifoEntry_t) :
  wf NFIFOCAP f → fRd f = false →
  ∃ f' x, FifoGet NFIFOCAP f item = Some (f', x, true).
Proof.
  intros Hwf Hflag. pose proof Hwf as (Hd & Hr & Hw).
  unfold FifoGet, load. rewrite Hflag, in_bounds_wf by done. simpl.
  destruct (lookup_lt_is_Some_2 (data f) (Z.to_nat (pRd f))) as [x Hx];
    [lia |].
  rewrite Hx. simpl. by do 2 eexists.
Qed.

Lemma FifoPut_after_read (f : Fifo_t) (item : FifoEntry_t) :
  wf NFIFOCAP f → fRd f = true →
  ∃ f', FifoPut NFIFOCAP f item = Some (f', true).
Proof.
  intros Hwf Hflag. pose proof Hwf as (Hd & Hr & Hw).
  unfold FifoPut, store. rewrite Hflag, in_bounds_wf by done. simpl.
  by eexists.
Qed.

Lemma put_get_trace_ok (items : list FifoEntry_t) :
  Forall (λ ev, is_failure ev = false) (put_get_trace items).
Proof. induction items; simpl; by repeat constructor. Qed.

Lemma dequeued_puts (m : nat) : omap got (replicate m PutOk) = [].
Proof. induction m; simpl; done. Qed.

Lemma dequeued_gets (items : list FifoEntry_t) :
  omap got (map GetOk items) = items.
Proof. induction items as [| x items IH]; simpl; [done | by f_equal]. Qed.

Lemma dequeued_fill_drain (items : list FifoEntry_t) :
  omap got (replicate (length items) PutOk ++ map GetOk items) = items.
Proof. by rewrite omap_app, dequeued_puts, dequeued_gets. Qed.

(** ** Properties of the buffer *)

(** C1. In every state reached from [FifoInit] by any sequence of
    enqueue/dequeue calls, both cursors lie in [0, NFIFOCAP); when the
    cursors coincide the buffer holds 0 entries if the last operation was a
    read and [NFIFOCAP] entries if it was a write; when they differ it holds
    [(pWr - pRd + NFIFOCAP) mod NFIFOCAP] entries.  The entries held are
    the successful enqueues minus the successful dequeues of the run, and
    the run itself never leaves the array. *)
Theorem reachable_cursors_and_occupancy (now : Z) (scratch : FifoEntry_t)
    (f0 : Fifo_t) (ops : list op) :
  Z.of_nat (length (data f0)) = NFIFOCAP →
  ∃ f evs,
    run NFIFOCAP scratch ops (FifoInit now f0).1 = Some (f, evs) ∧
    (0 ≤ pRd f < NFIFOCAP ∧ 0 ≤ pWr f < NFIFOCAP) ∧
    (pRd f = pWr f → fRd f = true → held evs = 0) ∧
    (pRd f = pWr f → fRd f = false → held evs = NFIFOCAP) ∧
    (pRd f ≠ pWr f → held evs = (pWr f - pRd f + NFIFOCAP) mod NFIFOCAP).
Proof.
  intros Hlen.
  destruct (run_rep scratch ops _ [] (rep_init now f0 Hlen))
    as (f & evs & q & Hrun & Hrep & Hheld).
  simpl in Hheld. exists f, evs. split; [done |].
  destruct Hrep as ((Hd & Hr & Hw) & Hle & Hptr & Ht & Hf & _).
  split; [done |].
  assert (Hq : 0 ≤ Z.of_nat (length q)) by lia.
  split; [| split].
  - intros Heq Hflag. rewrite <- Heq in Hptr. symmetry in Hptr.
    apply slot_back in Hptr; [| lia ..]. specialize (Ht Hflag). lia.
  - intros Heq Hflag. rewrite <- Heq in Hptr. symmetry in Hptr.
    apply slot_back in Hptr; [| lia ..]. specialize (Hf Hflag). lia.
  - intros Hne.
    assert (Hlt : Z.of_nat (length q) < NFIFOCAP).
    { destruct (decide (Z.of_nat (length q) = NFIFOCAP)) as [Hfull |];
        [| lia].
      rewrite Hfull, mod_two_spans in Hptr by lia.
      destruct (Z.ltb_spec (pRd f + NFIFOCAP) NFIFOCAP); lia. }
    rewrite Hptr, slot_distance by lia. lia.
Qed.

(** C2. For every buffer state, [FifoPut] reports failure exactly when the
    last operation was a write and the cursors coincide; the test comes
    before any access to the array, and a failed call returns the state it
    was given.  From a freshly initialised buffer [NFIFOCAP] enqueues all
    succeed and one more fails, leaving the state unchanged. *)
Theorem enqueue_full_test (f : Fifo_t) (item : FifoEntry_t) :
  ((∃ f', FifoPut NFIFOCAP f item = Some (f', false)) ↔
   (fRd f = false ∧ pRd f = pWr f)) ∧
  (∀ f', FifoPut NFIFOCAP f item = Some (f', false) → f' = f) ∧
  (∀ now scratch f0 items,
     Z.of_nat (length (data f0)) = NFIFOCAP →
     Z.of_nat (length items) = NFIFOCAP →
     ∃ f1, run NFIFOCAP scratch (map Enqueue items) (FifoInit now f0).1 =
             Some (f1, replicate (length items) PutOk) ∧
           FifoPut NFIFOCAP f1 item = Some (f1, false)).
Proof.
  split; [| split].
  - split.
    + intros [f' Hput]. by apply FifoPut_false_inv in Hput as (_ & ? & ?).
    + intros [Hflag Heq]. exists f. unfold FifoPut.
      rewrite Hflag, Heq, Z.eqb_refl. done.
  - intros f' Hput. by apply FifoPut_false_inv in Hput as (? & _).
  - intros now scratch f0 items Hlen Hitems.
    destruct (run_enqueues scratch items _ [] (rep_init now f0 Hlen))
      as (f1 & Hrun & Hrep); [simpl; lia |].
    exists f1. split; [done |].
    apply (FifoPut_full f1 _ item Hrep). simpl. lia.
Qed.

(** C3. For every buffer state, [FifoGet] reports failure exactly when the
    last operation was a read and the cursors coincide; a failed call
    returns the state it was given and leaves the caller's entry alone.  On
    a freshly initialised buffer it fails. *)
Theorem dequeue_empty_test (f : Fifo_t) (item : FifoEntry_t) :
  ((∃ f' x, FifoGet NFIFOCAP f item = Some (f', x, false)) ↔
   (fRd f = true ∧ pRd f = pWr f)) ∧
  (∀ f' x, FifoGet NFIFOCAP f item = Some (f', x, false) →
           f' = f ∧ x = item) ∧
  (∀ now f0, FifoGet NFIFOCAP (FifoInit now f0).1 item =
             Some ((FifoInit now f0).1, item, false)).
Proof.
  split; [| split].
  - split.
    + intros (f' & x & Hget).
      by apply FifoGet_false_inv in Hget as (_ & _ & ? & ?).
    + intros [Hflag Heq]. exists f, item. unfold FifoGet.
      rewrite Hflag, Heq, Z.eqb_refl. done.
  - intros f' x Hget. by apply FifoGet_false_inv in Hget as (? & ? & _).
  - done.
Qed.

(** C4. Strict FIFO order: [m ≤ NFIFOCAP] items enqueued into a freshly
    initialised buffer and then [m] dequeues all succeed, and the dequeued
    sequence is the enqueued sequence, in the same order.  (The items need
    not even be distinct.) *)
Theorem fifo_order (now : Z) (scratch : FifoEntry_t) (f0 : Fifo_t)
    (items : list FifoEntry_t) :
  Z.of_nat (length (data f0)) = NFIFOCAP →
  Z.of_nat (length items) ≤ NFIFOCAP →
  ∃ f evs,
    run NFIFOCAP scratch
      (map Enqueue items ++ replicate (length items) Dequeue)
      (FifoInit now f0).1 = Some (f, evs) ∧
    evs = replicate (length items) PutOk ++ map GetOk items ∧
    omap got evs = items.
Proof.
  intros Hlen Hfit.
  destruct (run_enqueues scratch items _ [] (rep_init now f0 Hlen))
    as (f1 & Hfill & Hrep1); [simpl; lia |].
  simpl in Hrep1.
  destruct (run_dequeues scratch f1 items Hrep1) as (f2 & Hdrain & _).
  exists f2, (replicate (length items) PutOk ++ map GetOk items).
  rewrite run_app, Hfill. simpl. rewrite Hdrain. simpl.
  split; [done |]. split; [done |]. apply dequeued_fill_drain.
Qed.

(** C5. Success postconditions.  A successful [FifoPut] has stored the
    whole item in the slot at [pWr], set the last operation to write and
    advanced [pWr] by one modulo [NFIFOCAP]; the other slots and [pRd] are
    untouched.  A successful [FifoGet] has returned the entry in the slot at
    [pRd], set the last operation to read and advanced [pRd] by one modulo
    [NFIFOCAP]; the slots and [pWr] are untouched.  In a well-formed buffer
    each call does succeed whenever its full (empty) test lets it through. *)
Theorem success_postconditions (f : Fifo_t) (item : FifoEntry_t) :
  (∀ f', FifoPut NFIFOCAP f item = Some (f', true) →
     data f' !! Z.to_nat (pWr f) = Some item ∧
     (∀ j : nat, j ≠ Z.to_nat (pWr f) → data f' !! j = data f !! j) ∧
     length (data f') = length (data f) ∧
     fRd f' = false ∧
     pWr f' = (pWr f + 1) mod NFIFOCAP ∧
     pRd f' = pRd f) ∧
  (∀ f' x, FifoGet NFIFOCAP f item = Some (f', x, true) →
     data f !! Z.to_nat (pRd f) = Some x ∧
     fRd f' = true ∧
     pRd f' = (pRd f + 1) mod NFIFOCAP ∧
     data f' = data f ∧
     pWr f' = pWr f) ∧
  (wf NFIFOCAP f →
     (¬ (fRd f = false ∧ pRd f = pWr f) →
      ∃ f', FifoPut NFIFOCAP f item = Some (f', true)) ∧
     (¬ (fRd f = true ∧ pRd f = pWr f) →
      ∃ f' x, FifoGet NFIFOCAP f item = Some (f', x, true))).
Proof.
  split; [| split].
  - intros f' Hput. apply FifoPut_true_inv in Hput as [Hin ->]. simpl.
    apply in_bounds_inv in Hin as [Hw Hlt].
    split; [by apply list_lookup_insert_eq |].
    split; [intros j Hj; by apply list_lookup_insert_ne |].
    split; [apply length_insert |].
    split; [done |]. split; [| done]. apply wrap_succ; lia.
  - intros f' x Hget. apply FifoGet_true_inv in Hget as (Hin & Hx & ->).
    simpl. apply in_bounds_inv in Hin as [Hr _].
    split; [done |]. split; [done |]. split; [| done].
    apply wrap_succ; lia.
  - intros Hwf. split; intros Hguard.
    + destruct (FifoPut_wf f item Hwf) as (f' & [|] & Hput & _);
        [by exists f' |].
      apply FifoPut_false_inv in Hput as (_ & ? & ?). by destruct Hguard.
    + destruct (FifoGet_wf f item Hwf) as (f' & x & [|] & Hget & _);
        [by exists f', x |].
      apply FifoGet_false_inv in Hget as (_ & _ & ? & ?). by destruct Hguard.
Qed.

(** C6. Wrap-around is exact.  From any well-formed buffer, every sequence
    of calls runs to completion, and if exactly [k * NFIFOCAP] of its
    enqueues succeeded then [pWr] is back where it started.  From a freshly
    initialised buffer, [3 * NFIFOCAP] enqueue-then-dequeue pairs all
    succeed: no enqueue reports full, no dequeue reports empty. *)
Theorem wrap_around_exact :
  (∀ scratch f ops k,
     wf NFIFOCAP f →
     ∃ f' evs, run NFIFOCAP scratch ops f = Some (f', evs) ∧
               (puts_ok evs = k * NFIFOCAP → pWr f' = pWr f)) ∧
  (∀ now scratch f0 items,
     Z.of_nat (length (data f0)) = NFIFOCAP →
     Z.of_nat (length items) = 3 * NFIFOCAP →
     ∃ f' evs, run NFIFOCAP scratch (put_get_pairs items)
                 (FifoInit now f0).1 = Some (f', evs) ∧
               evs = put_get_trace items ∧
               Forall (λ ev, is_failure ev = false) evs).
Proof.
  split.
  - intros scratch f ops k Hwf.
    destruct (run_wf scratch ops f Hwf) as (f' & evs & Hrun & _ & Hw).
    exists f', evs. split; [done |]. intros Hk.
    destruct Hwf as (_ & _ & Hb).
    rewrite Hw, Hk, Z_mod_plus_full, Z.mod_small; lia.
  - intros now scratch f0 items Hlen _.
    destruct (run_pairs scratch items _ (rep_init now f0 Hlen))
      as (f' & Hrun & _).
    exists f', (put_get_trace items).
    split; [done |]. split; [done |]. apply put_get_trace_ok.
Qed.

(** C8. [FifoInit] always reports success and leaves both cursors at the
    start of the slot array with the last operation set to read: the empty
    state. *)
Theorem init_establishes_empty (now : Z) (f : Fifo_t) :
  (FifoInit now f).2 = true ∧
  pRd (FifoInit now f).1 = 0 ∧
  pWr (FifoInit now f).1 = 0 ∧
  fRd (FifoInit now f).1 = true.
Proof. done. Qed.

(** C9. In a well-formed buffer, right after a successful enqueue the last
    operation is a write, so a dequeue made next succeeds; right after a
    successful dequeue the last operation is a read, so an enqueue made
    next succeeds. *)
Theorem opposite_call_succeeds (f : Fifo_t) (item scratch : FifoEntry_t) :
  wf NFIFOCAP f →
  (∀ f', FifoPut NFIFOCAP f item = Some (f', true) →
     fRd f' = false ∧
     ∃ f'' x, FifoGet NFIFOCAP f' scratch = Some (f'', x, true)) ∧
  (∀ f' x, FifoGet NFIFOCAP f scratch = Some (f', x, true) →
     fRd f' = true ∧
     ∀ item', ∃ f'', FifoPut NFIFOCAP f' item' = Some (f'', true)).
Proof.
  intros Hwf. split.
  - intros f' Hput.
    destruct (FifoPut_wf f item Hwf) as (f1 & ok & Hput1 & Hwf1 & _).
    rewrite Hput in Hput1. injection Hput1 as <- <-.
    apply FifoPut_true_inv in Hput as [_ Hf'].
    assert (Hflag : fRd f' = false) by by subst f'.
    split; [done |]. by apply FifoGet_after_write.
  - intros f' x Hget.
    destruct (FifoGet_wf f scratch Hwf) as (f1 & y & ok & Hget1 & Hwf1 & _).
    rewrite Hget in Hget1. injection Hget1 as <- <- <-.
    apply FifoGet_true_inv in Hget as (_ & _ & Hf').
    assert (Hflag : fRd f' = true) by by subst f'.
    split; [done |]. intros item'. by apply FifoPut_after_read.
Qed.

(** C10. [FifoInit] changes the two cursors and the last-operation flag
    only: every slot holds after the call what it held before, and the
    default entry built inside is stored nowhere. *)
Theorem init_keeps_slots (now : Z) (f : Fifo_t) :
  data (FifoInit now f).1 = data f.
Proof. done. Qed.

End Properties.

(** ** The buffer of the source: [NFIFOCAP = 4] *)

(** C7. On a freshly initialised buffer of capacity 4: the enqueues of
    ids 1, 2, 3, 4 succeed, a fifth (id 5) is refused as full, a dequeue
    returns id 1, id 5 now goes in, four dequeues return ids 2, 3, 4, 5 in
    that order and one more dequeue is refused as empty. *)
Theorem scenario_capacity_four (now : Z) (scratch : FifoEntry_t)
    (f0 : Fifo_t) (e1 e2 e3 e4 e5 : FifoEntry_t) :
  length (data f0) = 4%nat →
  ID e1 = 1 → ID e2 = 2 → ID e3 = 3 → ID e4 = 4 → ID e5 = 5 →
  ∃ f evs,
    run 4 scratch
      [Enqueue e1; Enqueue e2; Enqueue e3; Enqueue e4; Enqueue e5;
       Dequeue; Enqueue e5; Dequeue; Dequeue; Dequeue; Dequeue; Dequeue]
      (FifoInit now f0).1 = Some (f, evs) ∧
    evs = [PutOk; PutOk; PutOk; PutOk; PutFull;
           GetOk e1; PutOk; GetOk e2; GetOk e3; GetOk e4; GetOk e5;
           GetEmpty] ∧
    ID <$> omap got evs = [1; 2; 3; 4; 5].
Proof.
  intros Hlen H1 H2 H3 H4 H5.
  destruct f0 as [d r w b]. simpl in Hlen.
  destruct d as [| d0 [| d1 [| d2 [| d3 [| d4 d]]]]]; try done.
  do 2 eexists. split; [reflexivity |]. split; [reflexivity |].
  simpl. by rewrite H1, H2, H3, H4, H5.
Qed.

(** ** Concrete instances *)

Lemma reachable_cursors_and_occupancy_witness :
  Z.of_nat (length (data uninitialised)) = 4 ∧
  ∃ f evs,
    run 4 (sample_item 0)
      [Enqueue (sample_item 1); Enqueue (sample_item 2); Dequeue]
      (FifoInit 0 uninitialised).1 = Some (f, evs) ∧
    (0 ≤ pRd f < 4 ∧ 0 ≤ pWr f < 4) ∧
    (pRd f = pWr f → fRd f = true → held evs = 0) ∧
    (pRd f = pWr f → fRd f = false → held evs = 4) ∧
    (pRd f ≠ pWr f → held evs = (pWr f - pRd f + 4) mod 4).
Proof.
  split; [reflexivity |].
  apply (reachable_cursors_and_occupancy 4); [lia | reflexivity].
Defined.

Lemma enqueue_full_test_witness :
  0 < 4 ∧
  Z.of_nat (length (data uninitialised)) = 4 ∧
  Z.of_nat (length (sample_item <$> [1; 2; 3; 4])) = 4 ∧
  ∃ f1,
    run 4 (sample_item 0) (map Enqueue (sample_item <$> [1; 2; 3; 4]))
      (FifoInit 0 uninitialised).1 =
      Some (f1, replicate (length (sample_item <$> [1; 2; 3; 4])) PutOk) ∧
    FifoPut 4 f1 (sample_item 5) = Some (f1, false).
Proof.
  split; [lia |]. split; [reflexivity |]. split; [reflexivity |].
  destruct (enqueue_full_test 4 ltac:(lia) fresh (sample_item 5))
    as (_ & _ & Hfill).
  apply Hfill; reflexivity.
Defined.

Lemma dequeue_empty_test_witness :
  (fRd fresh = true ∧ pRd fresh = pWr fresh) ∧
  ∃ f' x, FifoGet 4 fresh (sample_item 0) = Some (f', x, false).
Proof.
  assert (Hempty : fRd fresh = true ∧ pRd fresh = pWr fresh)
    by (split; reflexivity).
  split; [exact Hempty |].
  destruct (dequeue_empty_test 4 fresh (sample_item 0)) as ((_ & Hfail) & _).
  exact (Hfail Hempty).
Defined.

Lemma fifo_order_witness :
  Z.of_nat (length (data uninitialised)) = 4 ∧
  Z.of_nat (length (sample_item <$> [3; 1; 2])) ≤ 4 ∧
  ∃ f evs,
    run 4 (sample_item 0)
      (map Enqueue (sample_item <$> [3; 1; 2]) ++
       replicate (length (sample_item <$> [3; 1; 2])) Dequeue)
      (FifoInit 0 uninitialised).1 = Some (f, evs) ∧
    evs = replicate (length (sample_item <$> [3; 1; 2])) PutOk ++
          map GetOk (sample_item <$> [3; 1; 2]) ∧
    omap got evs = sample_item <$> [3; 1; 2].
Proof.
  split; [reflexivity |]. split; [simpl; lia |].
  apply (fifo_order 4); [lia | reflexivity | simpl; lia].
Defined.

Lemma success_postconditions_witness :
  ∃ f', FifoPut 4 fresh (sample_item 1) = Some (f', true) ∧
        data f' !! Z.to_nat (pWr fresh) = Some (sample_item 1) ∧
        fRd f' = false ∧
        pWr f' = (pWr fresh + 1) mod 4 ∧
        pRd f' = pRd fresh.
Proof.
  eexists. split; [reflexivity |].
  destruct (success_postconditions 4 fresh (sample_item 1)) as (Hput & _ & _).
  destruct (Hput _ eq_refl) as (Hslot & _ & _ & Hflag & Hw & Hr).
  exact (conj Hslot (conj Hflag (conj Hw Hr))).
Defined.

Lemma wrap_around_exact_witness :
  0 < 4 ∧
  wf 4 fresh ∧
  (∃ f' evs,
     run 4 (sample_item 0)
       (put_get_pairs (sample_item <$> [1; 2; 3; 4; 5; 6; 7; 8])) fresh =
       Some (f', evs) ∧
     (puts_ok evs = 2 * 4 → pWr f' = pWr fresh)) ∧
  Z.of_nat (length (data uninitialised)) = 4 ∧
  Z.of_nat (length (sample_item <$> [1; 2; 3; 4; 5; 6; 7; 8; 9; 10; 11; 12]))
    = 3 * 4 ∧
  ∃ f' evs,
    run 4 (sample_item 0)
      (put_get_pairs
         (sample_item <$> [1; 2; 3; 4; 5; 6; 7; 8; 9; 10; 11; 12]))
      (FifoInit 0 uninitialised).1 = Some (f', evs) ∧
    evs = put_get_trace
            (sample_item <$> [1; 2; 3; 4; 5; 6; 7; 8; 9; 10; 11; 12]) ∧
    Forall (λ ev, is_failure ev = false) evs.
Proof.
  assert (Hwf : wf 4 fresh) by (unfold wf; simpl; lia).
  destruct (wrap_around_exact 4 ltac:(lia)) as (Hback & Hpairs).
  split; [lia |]. split; [exact Hwf |].
  split; [apply Hback; exact Hwf |].
  split; [reflexivity |]. split; [reflexivity |].
  apply Hpairs; reflexivity.
Defined.

Lemma scenario_capacity_four_witness :
  length (data uninitialised) = 4%nat ∧
  ∃ f evs,
    run 4 (sample_item 0)
      [Enqueue (sample_item 1); Enqueue (sample_item 2);
       Enqueue (sample_item 3); Enqueue (sample_item 4);
       Enqueue (sample_item 5); Dequeue; Enqueue (sample_item 5);
       Dequeue; Dequeue; Dequeue; Dequeue; Dequeue]
      (FifoInit 0 uninitialised).1 = Some (f, evs) ∧
    evs = [PutOk; PutOk; PutOk; PutOk; PutFull;
           GetOk (sample_item 1); PutOk; GetOk (sample_item 2);
           GetOk (sample_item 3); GetOk (sample_item 4);
           GetOk (sample_item 5); GetEmpty] ∧
    ID <$> omap got evs = [1; 2; 3; 4; 5].
Proof.
  split; [reflexivity |].
  apply (scenario_capacity_four 0 (sample_item 0) uninitialised);
    reflexivity.
Defined.

Lemma opposite_call_succeeds_witness :
  wf 4 fresh ∧
  ∃ f', FifoPut 4 fresh (sample_item 1) = Some (f', true) ∧
        fRd f' = false ∧
        ∃ f'' x, FifoGet 4 f' (sample_item 0) = Some (f'', x, true).
Proof.
  assert (Hwf : wf 4 fresh) by (unfold wf; simpl; lia).
  split; [exact Hwf |].
  destruct (opposite_call_succeeds 4 fresh (sample_item 1) (sample_item 0) Hwf)
    as (Hput & _).
  eexists. split; [reflexivity |]. exact (Hput _ eq_refl).
Defined.

(** ** Further properties of the buffer *)

Section Queue.

Variable NFIFOCAP : Z.
Hypothesis NFIFOCAP_pos : 0 < NFIFOCAP.

Lemma step_queue (scratch : FifoEntry_t) (o : op) (f : Fifo_t)
    (q : list FifoEntry_t) :
  rep NFIFOCAP f q →
  ∃ f', step NFIFOCAP scratch o f = Some (f', (queue_step NFIFOCAP o q).2) ∧
        rep NFIFOCAP f' (queue_step NFIFOCAP o q).1.
Proof.
  intros Hrep. destruct o as [item |]; simpl.
  - destruct (Z.ltb_spec (Z.of_nat (length q)) NFIFOCAP) as [Hroom | Hfull].
    + destruct (FifoPut_room NFIFOCAP NFIFOCAP_pos f q item Hrep Hroom)
        as (f' & -> & Hrep').
      by exists f'.
    + assert (Hlen : Z.of_nat (length q) = NFIFOCAP).
      { destruct Hrep as (_ & Hle & _). lia. }
      rewrite (FifoPut_full NFIFOCAP f q item Hrep Hlen). by exists f.
  - destruct q as [| x q].
    + rewrite (FifoGet_empty NFIFOCAP f scratch Hrep). by exists f.
    + destruct (FifoGet_some NFIFOCAP f x q scratch Hrep) as (f' & -> & Hrep').
      by exists f'.
Qed.

Lemma run_queue (scratch : FifoEntry_t) (ops : list op) (f : Fifo_t)
    (q : list FifoEntry_t) :
  rep NFIFOCAP f q →
  ∃ f', run NFIFOCAP scratch ops f = Some (f', (queue_run NFIFOCAP ops q).2) ∧
        rep NFIFOCAP f' (queue_run NFIFOCAP ops q).1.
Proof.
  revert f q. induction ops as [| o ops IH]; intros f q Hrep.
  - by exists f.
  - destruct (step_queue scratch o f q Hrep) as (f1 & Hstep & Hrep1).
    simpl. rewrite Hstep. simpl.
    destruct (queue_step NFIFOCAP o q) as [q1 ev]. simpl in *.
    destruct (IH f1 q1 Hrep1) as (f2 & Hrun & Hrep2).
    rewrite Hrun. simpl.
    destruct (queue_run NFIFOCAP ops q1) as [q2 evs]. simpl in *.
    by exists f2.
Qed.

(** Bookkeeping on the bounded queue itself. *)
Lemma queue_run_accepted (ops : list op) (q : list FifoEntry_t) :
  q ++ accepted ops (queue_run NFIFOCAP ops q).2 =
  omap got (queue_run NFIFOCAP ops q).2 ++ (queue_run NFIFOCAP ops q).1.
Proof.
  revert q. induction ops as [| o ops IH]; intros q; simpl.
  - by rewrite app_nil_r.
  - destruct o as [item |]; simpl.
    + destruct (Z.of_nat (length q) <? NFIFOCAP).
      * specialize (IH (q ++ [item])).
        destruct (queue_run NFIFOCAP ops (q ++ [item])) as [q2 evs].
        simpl in *. rewrite <- app_assoc in IH. exact IH.
      * specialize (IH q).
        destruct (queue_run NFIFOCAP ops q) as [q2 evs]. done.
    + destruct q as [| x q].
      * specialize (IH []).
        destruct (queue_run NFIFOCAP ops []) as [q2 evs]. done.
      * specialize (IH q).
        destruct (queue_run NFIFOCAP ops q) as [q2 evs]. simpl in *.
        f_equal. exact IH.
Qed.

Lemma queue_run_length (ops : list op) (q : list FifoEntry_t) :
  Z.of_nat (length (queue_run NFIFOCAP ops q).1) =
  Z.of_nat (length q) + held (queue_run NFIFOCAP ops q).2.
Proof.
  revert q. induction ops as [| o ops IH]; intros q; simpl; [lia |].
  destruct o as [item |]; simpl.
  - destruct (Z.of_nat (length q) <? NFIFOCAP).
    + specialize (IH (q ++ [item])). rewrite length_app in IH.
      destruct (queue_run NFIFOCAP ops (q ++ [item])) as [q2 evs].
      simpl in *. lia.
    + specialize (IH q).
      destruct (queue_run NFIFOCAP ops q) as [q2 evs]. simpl in *. lia.
  - destruct q as [| x q].
    + specialize (IH []).
      destruct (queue_run NFIFOCAP ops []) as [q2 evs]. simpl in *. lia.
    + specialize (IH q).
      destruct (queue_run NFIFOCAP ops q) as [q2 evs]. simpl in *. lia.
Qed.

Lemma run_enqueues_full (scratch : FifoEntry_t) (items : list FifoEntry_t)
    (f : Fifo_t) (q : list FifoEntry_t) :
  rep NFIFOCAP f q → Z.of_nat (length q) = NFIFOCAP →
  run NFIFOCAP scratch (map Enqueue items) f =
    Some (f, replicate (length items) PutFull).
Proof.
  intros Hrep Hlen. induction items as [| item items IH]; simpl; [done |].
  rewrite (FifoPut_full NFIFOCAP f q item Hrep Hlen). simpl.
  by rewrite IH.
Qed.

Lemma run_dequeues_empty (scratch : FifoEntry_t) (m : nat) (f : Fifo_t) :
  rep NFIFOCAP f [] →
  run NFIFOCAP scratch (replicate m Dequeue) f =
    Some (f, replicate m GetEmpty).
Proof.
  intros Hrep. induction m as [| m IH]; simpl; [done |].
  rewrite (FifoGet_empty NFIFOCAP f scratch Hrep). simpl. by rewrite IH.
Qed.

Lemma empty_rep (f : Fifo_t) :
  wf NFIFOCAP f → fRd f = true → pRd f = pWr f → rep NFIFOCAP f [].
Proof.
  intros Hwf Hflag Heq. pose proof Hwf as (_ & Hr & _).
  unfold rep. simpl. rewrite Z.add_0_r, Z.mod_small by lia.
  split; [done |]. split; [lia |]. split; [done |]. split; [lia |].
  split; [intros Hf; congruence | done].
Qed.

(** X1. Refinement.  Whatever calls a client makes after [FifoInit], the
    buffer reports exactly what a bounded queue of capacity [NFIFOCAP]
    that starts empty would report: the same successes, the same refusals
    and the same entries. *)
Theorem buffer_refines_queue (now : Z) (scratch : FifoEntry_t) (f0 : Fifo_t)
    (ops : list op) :
  Z.of_nat (length (data f0)) = NFIFOCAP →
  ∃ f, run NFIFOCAP scratch ops (FifoInit now f0).1 =
         Some (f, (queue_run NFIFOCAP ops []).2).
Proof.
  intros Hlen.
  destruct (run_queue scratch ops _ []
              (rep_init NFIFOCAP NFIFOCAP_pos now f0 Hlen)) as (f & Hrun & _).
  by exists f.
Qed.

(** X2. Nothing is lost, duplicated or reordered, under any interleaving
    of calls after [FifoInit]: the entries accepted so far are the entries
    dequeued so far followed by the entries still held, in order; as many
    are held as the trace says; and draining the buffer yields exactly
    those. *)
Theorem accepted_is_dequeued_then_held (now : Z) (scratch : FifoEntry_t)
    (f0 : Fifo_t) (ops : list op) :
  Z.of_nat (length (data f0)) = NFIFOCAP →
  ∃ f evs rest,
    run NFIFOCAP scratch ops (FifoInit now f0).1 = Some (f, evs) ∧
    accepted ops evs = omap got evs ++ rest ∧
    Z.of_nat (length rest) = held evs ∧
    ∃ f', run NFIFOCAP scratch (replicate (length rest) Dequeue) f =
            Some (f', map GetOk rest).
Proof.
  intros Hlen.
  destruct (run_queue scratch ops _ []
              (rep_init NFIFOCAP NFIFOCAP_pos now f0 Hlen))
    as (f & Hrun & Hrep).
  exists f, (queue_run NFIFOCAP ops []).2, (queue_run NFIFOCAP ops []).1.
  split; [done |].
  split; [exact (queue_run_accepted ops []) |].
  split; [exact (queue_run_length ops []) |].
  destruct (run_dequeues NFIFOCAP scratch f _ Hrep) as (f' & Hdrain & _).
  by exists f'.
Qed.

Lemma run_fill_overflow (scratch : FifoEntry_t) (kept lost : list FifoEntry_t)
    (f : Fifo_t) :
  rep NFIFOCAP f [] →
  Z.of_nat (length kept) ≤ NFIFOCAP →
  lost = [] ∨ Z.of_nat (length kept) = NFIFOCAP →
  ∃ f1 f2,
    run NFIFOCAP scratch (map Enqueue (kept ++ lost)) f =
      Some (f1, replicate (length kept) PutOk ++
                replicate (length lost) PutFull) ∧
    run NFIFOCAP scratch (replicate (length (kept ++ lost)) Dequeue) f1 =
      Some (f2, map GetOk kept ++ replicate (length lost) GetEmpty).
Proof.
  intros Hrep Hkept Hlost.
  destruct (run_enqueues NFIFOCAP NFIFOCAP_pos scratch kept f [] Hrep)
    as (f1 & Hfill & Hrep1); [simpl; lia |].
  simpl in Hrep1.
  assert (Hover : run NFIFOCAP scratch (map Enqueue lost) f1 =
                  Some (f1, replicate (length lost) PutFull)).
  { destruct Hlost as [-> | Hfull]; [done |].
    by apply (run_enqueues_full scratch lost f1 kept). }
  destruct (run_dequeues NFIFOCAP scratch f1 kept Hrep1)
    as (f2 & Hdrain & Hrep2).
  exists f1, f2. split.
  - rewrite map_app, run_app, Hfill. simpl. by rewrite Hover.
  - rewrite length_app, replicate_add, run_app, Hdrain.
    simpl. by rewrite (run_dequeues_empty scratch _ f2 Hrep2).
Qed.

(** X3. Overfilling.  When more items are enqueued in a row after
    [FifoInit] than the buffer has slots, the first [NFIFOCAP] are accepted
    and every later one is refused; as many dequeues then return exactly
    those first items, in order, and report empty for the rest.  An unread
    entry is never overwritten. *)
Theorem overfill_keeps_oldest (now : Z) (scratch : FifoEntry_t)
    (f0 : Fifo_t) (items : list FifoEntry_t) :
  Z.of_nat (length (data f0)) = NFIFOCAP →
  ∃ f1 f2,
    run NFIFOCAP scratch (map Enqueue items) (FifoInit now f0).1 =
      Some (f1,
            replicate (length (take (Z.to_nat NFIFOCAP) items)) PutOk ++
            replicate (length (drop (Z.to_nat NFIFOCAP) items)) PutFull) ∧
    run NFIFOCAP scratch (replicate (length items) Dequeue) f1 =
      Some (f2,
            map GetOk (take (Z.to_nat NFIFOCAP) items) ++
            replicate (length (drop (Z.to_nat NFIFOCAP) items)) GetEmpty).
Proof.
  intros Hlen.
  pose proof (rep_init NFIFOCAP NFIFOCAP_pos now f0 Hlen) as Hrep.
  pose proof (run_fill_overflow scratch (take (Z.to_nat NFIFOCAP) items)
                (drop (Z.to_nat NFIFOCAP) items) _ Hrep) as Hrun.
  rewrite take_drop in Hrun. apply Hrun; [rewrite length_take; lia |].
  destruct (decide (length items ≤ Z.to_nat NFIFOCAP)%nat) as [Hfew | Hmany].
  - left. by apply drop_ge.
  - right. rewrite length_take. lia.
Qed.

(** X4. Round trip.  On any well-formed buffer that is empty, an enqueue
    directly followed by a dequeue hands back the very entry that went in
    (all fields), and the buffer is empty again with both cursors one slot
    further on. *)
Theorem put_get_round_trip (f : Fifo_t) (item scratch : FifoEntry_t) :
  wf NFIFOCAP f → fRd f = true → pRd f = pWr f →
  ∃ f1 f2,
    FifoPut NFIFOCAP f item = Some (f1, true) ∧
    FifoGet NFIFOCAP f1 scratch = Some (f2, item, true) ∧
    fRd f2 = true ∧
    pRd f2 = pWr f2 ∧
    pRd f2 = (pRd f + 1) mod NFIFOCAP.
Proof.
  intros Hwf Hflag Heq. pose proof (empty_rep f Hwf Hflag Heq) as Hrep.
  destruct (FifoPut_room NFIFOCAP NFIFOCAP_pos f [] item Hrep)
    as (f1 & Hput & Hrep1); [simpl; lia |].
  destruct (FifoGet_some NFIFOCAP f1 item [] scratch Hrep1)
    as (f2 & Hget & Hrep2).
  exists f1, f2. split; [done |]. split; [done |].
  pose proof Hput as Hput'. apply FifoPut_true_inv in Hput' as [_ ->].
  pose proof Hget as Hget'. apply FifoGet_true_inv in Hget' as (_ & _ & ->).
  simpl. destruct Hwf as (_ & Hr & Hw).
  rewrite <- Heq, !wrap_succ by lia. done.
Qed.

(** X5. No false full, no false empty.  In every state reached from
    [FifoInit], between 0 and [NFIFOCAP] entries are held; an enqueue is
    refused when exactly [NFIFOCAP] are held and succeeds otherwise; a
    dequeue is refused when none is held and succeeds otherwise. *)
Theorem full_and_empty_are_exact (now : Z) (scratch : FifoEntry_t)
    (f0 : Fifo_t) (ops : list op) (item : FifoEntry_t) :
  Z.of_nat (length (data f0)) = NFIFOCAP →
  ∃ f evs,
    run NFIFOCAP scratch ops (FifoInit now f0).1 = Some (f, evs) ∧
    0 ≤ held evs ≤ NFIFOCAP ∧
    (held evs = NFIFOCAP → FifoPut NFIFOCAP f item = Some (f, false)) ∧
    (held evs < NFIFOCAP → ∃ f', FifoPut NFIFOCAP f item = Some (f', true)) ∧
    (held evs = 0 → FifoGet NFIFOCAP f item = Some (f, item, false)) ∧
    (0 < held evs → ∃ f' x, FifoGet NFIFOCAP f item = Some (f', x, true)).
Proof.
  intros Hlen.
  destruct (run_rep NFIFOCAP NFIFOCAP_pos scratch ops _ []
              (rep_init NFIFOCAP NFIFOCAP_pos now f0 Hlen))
    as (f & evs & q & Hrun & Hrep & Hheld).
  simpl in Hheld. exists f, evs. split; [done |].
  pose proof Hrep as (_ & Hle & _).
  split; [lia |]. split; [| split; [| split]].
  - intros Hfull. apply (FifoPut_full NFIFOCAP f q item Hrep). lia.
  - intros Hroom.
    destruct (FifoPut_room NFIFOCAP NFIFOCAP_pos f q item Hrep)
      as (f' & Hput & _); [lia |].
    by exists f'.
  - intros Hnone. destruct q as [| x q]; [| simpl in Hheld; lia].
    apply (FifoGet_empty NFIFOCAP f item Hrep).
  - intros Hsome. destruct q as [| x q]; [simpl in Hheld; lia |].
    destruct (FifoGet_some NFIFOCAP f x q item Hrep) as (f' & Hget & _).
    by exists f', x.
Qed.

End Queue.

(** ** Strings of the demo *)

Lemma c_string_text (text rest : list byte) :
  no_nul text → c_string (text ++ x00 :: rest) = Some text.
Proof.
  induction 1 as [| c text Hc _ IH]; simpl; [done |].
  by rewrite Hc, IH.
Qed.

Lemma strncpy_bytes_text (text rest : list byte) (n : nat) :
  no_nul text → (length text < n)%nat →
  strncpy_bytes (text ++ x00 :: rest) n =
    Some (text ++ replicate (n - length text) x00).
Proof.
  intros Htext. revert n.
  induction Htext as [| c text Hc _ IH]; intros n Hn; simpl in *.
  - destruct n as [| n]; [lia | done].
  - destruct n as [| n]; [lia |]. simpl. rewrite Hc, IH by lia. done.
Qed.

Lemma snprintf_fits (buf text : list byte) (size : Z) :
  0 < size ≤ Z.of_nat (length buf) →
  Z.of_nat (length text) < size →
  snprintf buf size text =
    Some (text ++ x00 :: drop (S (length text)) buf).
Proof.
  intros Hsize Hfit. unfold snprintf.
  destruct (Z.eqb_spec size 0); [lia |].
  replace ((0 <? size) && (size <=? Z.of_nat (length buf))) with true.
  2: { symmetry. apply andb_true_iff. rewrite Z.ltb_lt, Z.leb_le. lia. }
  rewrite take_ge by lia. rewrite <- app_assoc. simpl.
  do 4 f_equal. rewrite length_app. simpl. lia.
Qed.

Lemma strncpy_text (dest text rest : list byte) (n : Z) :
  no_nul text → Z.of_nat (length text) < n → Z.of_nat (length dest) = n →
  strncpy dest (text ++ x00 :: rest) n =
    Some (text ++ replicate (Z.to_nat n - length text) x00).
Proof.
  intros Htext Hfit Hdest. unfold strncpy.
  replace ((0 <=? n) && (n <=? Z.of_nat (length dest))) with true.
  2: { symmetry. apply andb_true_iff. rewrite !Z.leb_le. lia. }
  rewrite strncpy_bytes_text by (done || lia). simpl.
  rewrite drop_ge by lia. by rewrite app_nil_r.
Qed.

Lemma snprintf_string (buf : list byte) (size : Z) (text : list byte) :
  0 < size ≤ Z.of_nat (length buf) → no_nul text →
  ∃ written,
    snprintf buf size text = Some written ∧
    c_string written = Some (take (Z.to_nat (size - 1)) text).
Proof.
  intros Hsize Htext. unfold snprintf.
  destruct (Z.eqb_spec size 0); [lia |].
  replace ((0 <? size) && (size <=? Z.of_nat (length buf))) with true.
  2: { symmetry. apply andb_true_iff. rewrite Z.ltb_lt, Z.leb_le. lia. }
  eexists. split; [reflexivity |].
  rewrite <- app_assoc. apply c_string_text. by apply Forall_take.
Qed.

Lemma hex_digit_no_nul (v : Z) : Byte.eqb (hex_digit v) x00 = false.
Proof.
  unfold hex_digit. generalize (Z.to_nat v). intros n.
  do 17 (destruct n as [| n]; [done |]). by destruct n.
Qed.

Lemma hex_digits_no_nul (fuel : nat) (v : Z) : no_nul (hex_digits fuel v).
Proof.
  revert v. induction fuel as [| fuel IH]; intros v; simpl; [constructor |].
  apply Forall_app. split.
  - destruct (v <? 16); [constructor | apply IH].
  - constructor; [apply hex_digit_no_nul | constructor].
Qed.

Lemma hex_digits_length (fuel : nat) (v : Z) :
  (length (hex_digits fuel v) ≤ fuel)%nat.
Proof.
  revert v. induction fuel as [| fuel IH]; intros v; simpl; [done |].
  rewrite length_app. simpl.
  destruct (v <? 16); simpl; [lia |]. specialize (IH (v / 16)). lia.
Qed.

Lemma fmt_0X_no_nul (w : nat) (v : Z) : no_nul (fmt_0X w v).
Proof.
  unfold fmt_0X. apply Forall_app. split.
  - by apply Forall_replicate.
  - apply hex_digits_no_nul.
Qed.

Lemma fmt_0X_8_length (v : Z) : length (fmt_0X 8 v) = 8%nat.
Proof.
  unfold fmt_0X. rewrite length_app, length_replicate.
  pose proof (hex_digits_length 8 v). lia.
Qed.

Lemma dump_title_no_nul (addr : Z) : no_nul (dump_title_text addr).
Proof.
  unfold dump_title_text. apply Forall_app. split.
  - by repeat constructor.
  - apply Forall_app. split; [apply fmt_0X_no_nul | by repeat constructor].
Qed.

Lemma entry_names_checked :
  forallb (λ v, (Z.of_nat (length (entry_name_text v)) <? 16) &&
                forallb (λ c, negb (Byte.eqb c x00)) (entry_name_text v))
    (seqZ 0 256) = true.
Proof. vm_compute. reflexivity. Qed.

Lemma entry_name_fits (eIdx : Z) :
  0 ≤ eIdx ≤ 255 →
  Z.of_nat (length (entry_name_text eIdx)) < 16 ∧
  no_nul (entry_name_text eIdx).
Proof.
  intros Hid. pose proof entry_names_checked as Hall.
  rewrite forallb_forall in Hall.
  assert (Hin : In eIdx (seqZ 0 256)).
  { apply list_elem_of_In, elem_of_seqZ. lia. }
  apply Hall, andb_true_iff in Hin as [Hlen Hnul].
  apply Z.ltb_lt in Hlen. split; [done |].
  unfold no_nul. apply List.Forall_forall. intros c Hc.
  rewrite forallb_forall in Hnul. apply Hnul, negb_true_iff in Hc. done.
Qed.

Lemma name_built (eIdx : Z) (eName dest : list byte) :
  0 ≤ eIdx ≤ 255 →
  Z.of_nat (length eName) = NNAMESIZE →
  Z.of_nat (length dest) = NNAMESIZE →
  ∃ written name,
    snprintf eName (NNAMESIZE - 1) (entry_name_text eIdx) = Some written ∧
    strncpy dest written NNAMESIZE = Some name ∧
    name = entry_name_text eIdx ++
           replicate (Z.to_nat NNAMESIZE - length (entry_name_text eIdx)) x00 ∧
    Z.of_nat (length name) = NNAMESIZE ∧
    c_string name = Some (entry_name_text eIdx).
Proof.
  intros Hid HeName Hdest. unfold NNAMESIZE in *.
  destruct (entry_name_fits eIdx Hid) as [Hlen Hnul].
  generalize dependent (entry_name_text eIdx). intros text Hlen Hnul.
  do 2 eexists.
  split; [apply snprintf_fits; lia |].
  split; [apply strncpy_text; (done || lia) |].
  split; [done |].
  split; [rewrite length_app, length_replicate; lia |].
  assert (Hpad : ∃ k, (Z.to_nat 20 - length text)%nat = S k)
    by (exists (Z.to_nat 20 - length text - 1)%nat; lia).
  destruct Hpad as [k ->].
  exact (c_string_text text (replicate k x00) Hnul).
Qed.

(** X6. The name of a demo entry.  For every id a [uint8_t] can hold and
    whatever the uninitialised arrays contained, the [snprintf] and
    [strncpy] of [testFIFO] leave in [item.Name] the full text
    ["( entry [id] )"] followed by NULs only: the text is never cut, the
    array is NUL-terminated, and nothing of the old contents remains. *)
Theorem entry_name_stored (eIdx : Z) (eName dest : list byte) :
  0 ≤ eIdx ≤ 255 →
  Z.of_nat (length eName) = NNAMESIZE →
  Z.of_nat (length dest) = NNAMESIZE →
  ∃ written name,
    snprintf eName (NNAMESIZE - 1) (entry_name_text eIdx) = Some written ∧
    strncpy dest written NNAMESIZE = Some name ∧
    name = entry_name_text eIdx ++
           replicate (Z.to_nat NNAMESIZE - length (entry_name_text eIdx)) x00 ∧
    Z.of_nat (length name) = NNAMESIZE ∧
    c_string name = Some (entry_name_text eIdx).
Proof. apply name_built. Qed.

(** ** The demo run *)





Section DemoRun.

Variable NFIFOCAP : Z.
Variable NITEMS : Z.
Variable clk : nat → Z.
Variable fifo0 : Fifo_t.
Variable eName0 : Z → list byte.
Variable item0 : Z → FifoEntry_t.
Variable e0 : Z → FifoEntry_t.
Variable msg0 : list byte.
Variable fifo_addr : Z.

Hypothesis NFIFOCAP_pos : 0 < NFIFOCAP.
Hypothesis NITEMS_u8 : 0 ≤ NITEMS ≤ 255.
Hypothesis fifo0_size : Z.of_nat (length (data fifo0)) = NFIFOCAP.
Hypothesis eName0_size : ∀ idx, Z.of_nat (length (eName0 idx)) = NNAMESIZE.
Hypothesis item0_size :
  ∀ idx, Z.of_nat (length (Name (item0 idx))) = NNAMESIZE.
Hypothesis msg0_size : Z.of_nat (length msg0) = NMSGLEN.








End DemoRun.

(** ** The dumper *)

Lemma dump_char_no_nul (row : list byte) : no_nul (dump_char <$> row).
Proof.
  induction row as [| b row IH]; constructor; [| done].
  by destruct b.
Qed.

Lemma dump_pad_blanks (fuel : nat) :
  ∀ (i : Z) (out : list byte),
    0 ≤ i < 2 ^ 32 → (- i) mod 16 ≤ Z.of_nat fuel →
    dump_pad fuel i out =
      out ++ replicate (Z.to_nat (3 * ((- i) mod 16))) " "%byte.
Proof.
  change (2 ^ 32) with 4294967296.
  induction fuel as [| fuel IH]; intros i out Hi Hfuel; simpl.
  - replace ((- i) mod 16) with 0 by (Z.div_mod_to_equations; lia).
    by rewrite app_nil_r.
  - destruct (Z.eqb_spec (i mod 16) 0) as [Hz | Hnz].
    + replace ((- i) mod 16) with 0 by (Z.div_mod_to_equations; lia).
      by rewrite app_nil_r.
    + change (2 ^ 32) with 4294967296.
      assert (Hnext : (- ((i + 1) mod 4294967296)) mod 16 = (- i) mod 16 - 1)
        by (Z.div_mod_to_equations; lia).
      rewrite IH by (Z.div_mod_to_equations; lia).
      rewrite Hnext, <- app_assoc. f_equal.
      replace (Z.to_nat (3 * ((- i) mod 16)))
        with (3 + Z.to_nat (3 * ((- i) mod 16 - 1)))%nat
        by (Z.div_mod_to_equations; lia).
      done.
Qed.

Lemma buff_next (pre rest : list byte) (c : byte) :
  rest ≠ [] →
  <[S (length pre) := x00]> (<[length pre := c]> (pre ++ x00 :: rest)) =
  (pre ++ [c]) ++ x00 :: drop 1 rest.
Proof.
  intros Hrest. destruct rest as [| y rest]; [done |].
  rewrite insert_app_r_alt, Nat.sub_diag by lia. simpl.
  rewrite insert_app_r_alt by lia.
  replace (S (length pre) - length pre)%nat with 1%nat by lia. simpl.
  by rewrite <- app_assoc.
Qed.

Lemma dump_hex_snoc (row : list byte) (b : byte) :
  dump_hex (row ++ [b]) = dump_hex row ++ " "%byte :: fmt_0X 2 (byte_val b).
Proof.
  unfold dump_hex. rewrite bind_app. f_equal. simpl. by rewrite app_nil_r.
Qed.

(** Bring a concatenation of pieces of text to one right-nested form. *)
Ltac flatten_text :=
  repeat (rewrite <- app_assoc || rewrite <- app_comm_cons ||
          rewrite app_nil_l).

Lemma seqZ_snoc (n : Z) : 0 ≤ n → seqZ 0 (n + 1) = seqZ 0 n ++ [n].
Proof.
  intros Hn. rewrite <- (Z2Nat.id n) at 1 by done.
  replace (Z.of_nat (Z.to_nat n) + 1) with (Z.of_nat (S (Z.to_nat n))) by lia.
  rewrite seqZ_S, Z2Nat.id by done. done.
Qed.

Lemma bind_snoc {A B : Type} (g : A → list B) (l : list A) (x : A) :
  (l ++ [x]) ≫= g = (l ≫= g) ++ g x.
Proof. rewrite bind_app. f_equal. simpl. apply app_nil_r. Qed.

Lemma dump_row_full (offset : Z) (row : list byte) :
  length row = 16%nat →
  dump_row offset row =
  dump_row_start offset row ++
  [" "; " "]%byte ++ (dump_char <$> row) ++ [x0a].
Proof. intros Hrow. unfold dump_row. by rewrite Hrow. Qed.

Lemma dump_row_start_one (offset : Z) (b : byte) :
  dump_row_start offset [b] =
  [" "; " "]%byte ++ fmt_0X 4 offset ++ [" "]%byte ++
  " "%byte :: fmt_0X 2 (byte_val b).
Proof.
  unfold dump_row_start. change [b] with ([] ++ [b]).
  by rewrite dump_hex_snoc.
Qed.

Section Dump.

Variable head : list byte.
Variable pc : list byte.

(** The first byte opens row 0. *)
Lemma dump_byte_first (buff0 : list byte) :
  length buff0 = 17%nat → 0 < Z.of_nat (length pc) →
  ∃ st, dump_byte pc 0 (buff0, head) = Some st ∧ dump_inv head pc 0 1 st.
Proof.
  intros Hbuff Hpc.
  destruct (lookup_lt_is_Some_2 pc 0%nat) as [b Hb]; [lia |].
  unfold dump_byte. change (Z.to_nat 0) with 0%nat. rewrite Hb. simpl.
  eexists. split; [reflexivity |].
  assert (Hcur : take 1 pc = [b]).
  { destruct pc as [| b' pc']; [done |]. simpl in *. by injection Hb as ->. }
  unfold dump_inv. simpl.
  change (Z.to_nat (0 mod 16 + 1)) with 1%nat.
  change (Z.to_nat (0 mod 16)) with 0%nat.
  change (Z.to_nat (16 * 0)) with 0%nat.
  change (Z.to_nat 1) with 1%nat.
  rewrite drop_0, Hcur.
  split; [lia |]. split; [lia |]. split; [lia |].
  destruct buff0 as [| c0 [| c1 tl]]; try done.
  split; [done |]. split; [by eexists |].
  rewrite <- app_assoc. f_equal. by rewrite dump_row_start_one.
Qed.

(** Every later byte extends the current row, or closes it and opens the
    next. *)
Lemma dump_byte_inv (r k : Z) (st : list byte * list byte) :
  dump_inv head pc r k st → 16 * r + k < Z.of_nat (length pc) →
  ∃ st', dump_byte pc (16 * r + k) st = Some st' ∧
         dump_inv head pc (if k =? 16 then r + 1 else r)
           (if k =? 16 then 1 else k + 1) st'.
Proof.
  destruct st as [buff out].
  intros (Hr & Hk & Hfit & Hlen & [rest Hbuff] & Hout) Hmore. simpl in *.
  set (cur := take (Z.to_nat k) (drop (Z.to_nat (16 * r)) pc)) in *.
  assert (Hcur : length cur = Z.to_nat k).
  { unfold cur. rewrite length_take, length_drop. lia. }
  destruct (lookup_lt_is_Some_2 pc (Z.to_nat (16 * r + k))) as [b Hb];
    [lia |].
  assert (Hshown : c_string buff = Some (dump_char <$> cur)).
  { rewrite Hbuff. apply c_string_text, dump_char_no_nul. }
  unfold dump_byte. rewrite Hb.
  destruct (Z.eqb_spec k 16) as [-> | Hrow].
  - (* the row is complete *)
    replace ((16 * r + 16) mod 16) with 0 by (Z.div_mod_to_equations; lia).
    destruct (Z.eqb_spec (16 * r + 16) 0) as [| _]; [lia |].
    simpl. rewrite Hshown. simpl.
    eexists. split; [reflexivity |].
    assert (Hnew : take 1 (drop (Z.to_nat (16 * (r + 1))) pc) = [b]).
    { replace (16 * (r + 1)) with (16 * r + 16) by lia.
      assert (Hd : drop (Z.to_nat (16 * r + 16)) pc !! 0%nat = Some b)
        by (rewrite lookup_drop, Nat.add_0_r; exact Hb).
      destruct (drop (Z.to_nat (16 * r + 16)) pc) as [| b' l]; [done |].
      simpl in Hd. by injection Hd as ->. }
    unfold dump_inv. simpl.
    change (Z.to_nat (0 + 1)) with 1%nat. change (Z.to_nat 0) with 0%nat.
    change (Z.to_nat 1) with 1%nat.
    rewrite Hnew.
    split; [lia |]. split; [lia |]. split; [lia |].
    destruct buff as [| c0 [| c1 tl]]; try done.
    split; [done |]. split; [by eexists |].
    rewrite Hout, seqZ_snoc, bind_snoc by done.
    change (take 16 (drop (Z.to_nat (16 * r)) pc)) with cur.
    rewrite dump_row_full, dump_row_start_one by done.
    replace (16 * (r + 1)) with (16 * r + 16) by lia.
    by flatten_text.
  - (* the row goes on *)
    replace ((16 * r + k) mod 16) with k by (Z.div_mod_to_equations; lia).
    destruct (Z.eqb_spec k 0) as [| _]; [lia |]. simpl.
    eexists. split; [reflexivity |].
    assert (Hnew : take (Z.to_nat (k + 1)) (drop (Z.to_nat (16 * r)) pc) =
                   cur ++ [b]).
    { replace (Z.to_nat (k + 1)) with (S (Z.to_nat k)) by lia.
      apply take_S_r. rewrite lookup_drop, <- Hb. f_equal. lia. }
    unfold dump_inv. simpl. rewrite Hnew.
    split; [lia |]. split; [lia |]. split; [lia |].
    split; [by rewrite !length_insert |].
    assert (Hrest : rest ≠ []).
    { intros ->. rewrite Hbuff, length_app, length_fmap in Hlen.
      simpl in Hlen. lia. }
    split.
    + exists (drop 1 rest). rewrite Hbuff.
      replace (Z.to_nat (k + 1)) with (S (length (dump_char <$> cur)))
        by (rewrite length_fmap; lia).
      replace (Z.to_nat k) with (length (dump_char <$> cur))
        by (rewrite length_fmap; lia).
      rewrite buff_next by done. by rewrite fmap_app.
    + rewrite Hout. unfold dump_row_start.
      rewrite dump_hex_snoc. by flatten_text.
Qed.

Lemma dump_loop_inv (n : nat) :
  ∀ (r k : Z) (st : list byte * list byte),
    dump_inv head pc r k st →
    16 * r + k + Z.of_nat n ≤ Z.of_nat (length pc) →
    ∃ st' r' k',
      dump_loop pc n (16 * r + k) st = Some st' ∧
      dump_inv head pc r' k' st' ∧
      16 * r' + k' = 16 * r + k + Z.of_nat n.
Proof.
  induction n as [| n IH]; intros r k st Hinv Hfit.
  - exists st, r, k. simpl. split; [done |]. split; [done | lia].
  - destruct (dump_byte_inv r k st Hinv) as (st1 & Hbyte & Hinv1); [lia |].
    simpl. rewrite Hbyte. simpl.
    destruct (IH _ _ st1 Hinv1) as (st' & r' & k' & Hloop & Hinv' & Hsum).
    { destruct (Z.eqb_spec k 16); lia. }
    exists st', r', k'.
    replace (16 * r + k + 1)
      with (16 * (if k =? 16 then r + 1 else r) +
            (if k =? 16 then 1 else k + 1))
      by (destruct (Z.eqb_spec k 16); lia).
    split; [done |]. split; [done |].
    destruct (Z.eqb_spec k 16); lia.
Qed.

End Dump.

Lemma c_string_none (buf : list byte) : no_nul buf → c_string buf = None.
Proof.
  induction 1 as [| c buf Hc _ IH]; simpl; [done |]. by rewrite Hc, IH.
Qed.

Lemma dump_rows_take (pc : list byte) (r k : Z) :
  0 ≤ r → 1 ≤ k ≤ 16 → 16 * r + k ≤ Z.of_nat (length pc) →
  dump_rows (take (Z.to_nat (16 * r + k)) pc) =
  (seqZ 0 r ≫= λ j,
     dump_row (16 * j) (take 16 (drop (Z.to_nat (16 * j)) pc))) ++
  dump_row (16 * r) (take (Z.to_nat k) (drop (Z.to_nat (16 * r)) pc)).
Proof.
  intros Hr Hk Hfit. unfold dump_rows.
  rewrite length_take.
  replace ((Z.of_nat (Z.to_nat (16 * r + k) `min` length pc) + 15) / 16)
    with (r + 1) by (Z.div_mod_to_equations; lia).
  rewrite seqZ_snoc, bind_snoc by done. f_equal.
  - apply Forall_bind_ext, Forall_forall. intros j Hj.
    apply elem_of_seqZ in Hj. f_equal.
    rewrite skipn_firstn_comm, take_take. f_equal. lia.
  - f_equal. rewrite skipn_firstn_comm, take_take. f_equal. lia.
Qed.

Lemma hexDump_after_loop (desc : option (list byte)) (pc : list byte)
    (len : Z) (buff0 buff out : list byte) :
  0 ≤ len < 2 ^ 32 →
  dump_loop pc (Z.to_nat len) 0 (buff0, dump_head desc) = Some (buff, out) →
  hexDump desc pc len buff0 =
    text ← c_string buff;
    Some ((out ++ replicate (Z.to_nat (3 * ((- len) mod 16))) " "%byte) ++
          [" "; " "]%byte ++ text ++ [x0a]).
Proof.
  intros Hlen Hloop.
  rewrite <- (dump_pad_blanks 16 len out Hlen)
    by (Z.div_mod_to_equations; lia).
  unfold hexDump. fold (dump_head desc). by rewrite Hloop.
Qed.

Lemma hexDump_rows (desc : option (list byte)) (pc : list byte) (len : Z)
    (buff0 : list byte) :
  0 < len ≤ Z.of_nat (length pc) → len < 2 ^ 32 → length buff0 = 17%nat →
  hexDump desc pc len buff0 =
    Some (dump_head desc ++ dump_rows (take (Z.to_nat len) pc)).
Proof.
  intros Hlen Hu32 Hbuff.
  assert (Hloop : ∃ buff out r k,
            dump_loop pc (Z.to_nat len) 0 (buff0, dump_head desc) =
              Some (buff, out) ∧
            dump_inv (dump_head desc) pc r k (buff, out) ∧
            16 * r + k = len).
  { destruct (Z.to_nat len) as [| n] eqn:Hn; [lia |].
    change (dump_loop pc (S n) 0 (buff0, dump_head desc))
      with (dump_byte pc 0 (buff0, dump_head desc) ≫=
            dump_loop pc n (0 + 1)).
    destruct (dump_byte_first (dump_head desc) pc buff0 Hbuff)
      as (st1 & -> & Hinv1); [lia |].
    destruct (dump_loop_inv (dump_head desc) pc n 0 1 st1 Hinv1)
      as ([buff out] & r & k & Hloop & Hinv & Hsum); [lia |].
    exists buff, out, r, k. split; [exact Hloop |]. split; [done | lia]. }
  destruct Hloop as (buff & out & r & k & Hloop & Hinv & <-).
  rewrite (hexDump_after_loop desc pc _ buff0 buff out) by (done || lia).
  destruct Hinv as (Hr & Hk & Hfit & _ & [rest Hshown] & Hout).
  cbn [fst snd] in Hshown, Hout.
  rewrite Hshown, c_string_text by apply dump_char_no_nul.
  rewrite dump_rows_take by done.
  rewrite Hout. unfold dump_row at 3.
  rewrite length_take, length_drop.
  replace (Z.to_nat (3 * ((- (16 * r + k)) mod 16)))
    with (3 * (16 - Z.to_nat k `min` (length pc - Z.to_nat (16 * r))))%nat
    by (Z.div_mod_to_equations; lia).
  cbn [mbind option_bind]. f_equal. by flatten_text.
Qed.

(** X8. The layout of a dump.  For a non-empty region that can be read,
    [hexDump] prints the description line, if any, and then one row per 16
    bytes: the offset of the row in hexadecimal, each byte as two
    hexadecimal digits, blanks in place of the bytes a short last row
    lacks, and the ASCII column, in which a byte outside 0x20..0x7e shows
    as a dot.  Although each ASCII column is printed one iteration late
    from a reused buffer, no row is lost, repeated or mixed with another. *)
Theorem hexDump_layout (desc : option (list byte)) (pc : list byte)
    (len : Z) (buff0 : list byte) :
  0 < len ≤ Z.of_nat (length pc) → len < 2 ^ 32 → length buff0 = 17%nat →
  hexDump desc pc len buff0 =
    Some (dump_head desc ++ dump_rows (take (Z.to_nat len) pc)).
Proof. apply hexDump_rows. Qed.

(** X9. The uninitialised line buffer.  For a non-empty region the output
    is the same whatever [buff] held on entry.  For [len = 0] nothing ever
    writes [buff], and the final [printf] prints what it held: its bytes up
    to the first NUL appear in the output, and when it holds no NUL the
    call reads past the array. *)
Theorem hexDump_leftovers (desc : option (list byte)) (pc : list byte) :
  (∀ len b1 b2,
     0 < len ≤ Z.of_nat (length pc) → len < 2 ^ 32 →
     length b1 = 17%nat → length b2 = 17%nat →
     hexDump desc pc len b1 = hexDump desc pc len b2 ∧
     is_Some (hexDump desc pc len b1)) ∧
  (∀ text rest,
     no_nul text →
     hexDump desc pc 0 (text ++ x00 :: rest) =
       Some (dump_head desc ++ [" "; " "]%byte ++ text ++ [x0a])) ∧
  (∀ buff0, no_nul buff0 → hexDump desc pc 0 buff0 = None).
Proof.
  split; [| split].
  - intros len b1 b2 Hlen Hu32 Hb1 Hb2.
    rewrite !hexDump_rows by done. split; [done | by eexists].
  - intros text rest Htext. unfold hexDump. fold (dump_head desc). simpl.
    by rewrite c_string_text.
  - intros buff0 Hbuff. unfold hexDump. simpl. by rewrite c_string_none.
Qed.

(** X10. The title of the debug dump.  [testFIFO] formats the title
    ["[DEBUG]: FIFO (start address XXXXXXXX) dump"] into [msg] with a limit
    of [NMSGLEN - 1]; the text is longer than the limit allows, so whatever
    the address the title that reaches [hexDump] ends right after the
    closing parenthesis: the word ["dump"] is always cut off. *)
Theorem dump_title_cut (addr : Z) (msg0 : list byte) :
  0 ≤ addr < 2 ^ 32 → Z.of_nat (length msg0) = NMSGLEN →
  ∃ msg,
    snprintf msg0 (NMSGLEN - 1) (dump_title_text addr) = Some msg ∧
    c_string msg =
      Some (["["; "D"; "E"; "B"; "U"; "G"; "]"; ":"; " "; "F"; "I"; "F"; "O";
             " "; "("; "s"; "t"; "a"; "r"; "t"; " "; "a"; "d"; "d"; "r"; "e";
             "s"; "s"; " "]%byte ++ fmt_0X 8 addr ++ [")"]%byte).
Proof.
  intros _ Hmsg. unfold NMSGLEN in *.
  destruct (snprintf_string msg0 (40 - 1) (dump_title_text addr))
    as (msg & Hwritten & Hshown); [lia | apply dump_title_no_nul |].
  exists msg. split; [done |]. rewrite Hshown. f_equal.
  unfold dump_title_text.
  change (Z.to_nat (40 - 1 - 1)) with (29 + (8 + 1))%nat.
  rewrite take_app_add' by done.
  rewrite take_app_add' by (by rewrite fmt_0X_8_length).
  done.
Qed.

(** ** Concrete instances of the further properties *)

Lemma buffer_refines_queue_witness :
  0 < 4 ∧ Z.of_nat (length (data uninitialised)) = 4 ∧
  ∃ f, run 4 (sample_item 0) sample_ops (FifoInit 0 uninitialised).1 =
         Some (f, (queue_run 4 sample_ops []).2).
Proof.
  split; [lia |]. split; [reflexivity |].
  apply (buffer_refines_queue 4); [lia | reflexivity].
Defined.

Lemma accepted_is_dequeued_then_held_witness :
  0 < 4 ∧ Z.of_nat (length (data uninitialised)) = 4 ∧
  ∃ f evs rest,
    run 4 (sample_item 0) sample_ops (FifoInit 0 uninitialised).1 =
      Some (f, evs) ∧
    accepted sample_ops evs = omap got evs ++ rest ∧
    Z.of_nat (length rest) = held evs ∧
    ∃ f', run 4 (sample_item 0) (replicate (length rest) Dequeue) f =
            Some (f', map GetOk rest).
Proof.
  split; [lia |]. split; [reflexivity |].
  apply (accepted_is_dequeued_then_held 4); [lia | reflexivity].
Defined.

Lemma overfill_keeps_oldest_witness :
  0 < 4 ∧ Z.of_nat (length (data uninitialised)) = 4 ∧
  ∃ f1 f2,
    run 4 (sample_item 0) (map Enqueue (sample_item <$> [1; 2; 3; 4; 5; 6]))
      (FifoInit 0 uninitialised).1 =
      Some (f1,
            replicate
              (length (take (Z.to_nat 4) (sample_item <$> [1; 2; 3; 4; 5; 6])))
              PutOk ++
            replicate
              (length (drop (Z.to_nat 4) (sample_item <$> [1; 2; 3; 4; 5; 6])))
              PutFull) ∧
    run 4 (sample_item 0)
      (replicate (length (sample_item <$> [1; 2; 3; 4; 5; 6])) Dequeue) f1 =
      Some (f2,
            map GetOk (take (Z.to_nat 4) (sample_item <$> [1; 2; 3; 4; 5; 6])) ++
            replicate
              (length (drop (Z.to_nat 4) (sample_item <$> [1; 2; 3; 4; 5; 6])))
              GetEmpty).
Proof.
  split; [lia |]. split; [reflexivity |].
  apply (overfill_keeps_oldest 4); [lia | reflexivity].
Defined.

Lemma put_get_round_trip_witness :
  0 < 4 ∧ wf 4 fresh ∧ fRd fresh = true ∧ pRd fresh = pWr fresh ∧
  ∃ f1 f2,
    FifoPut 4 fresh (sample_item 1) = Some (f1, true) ∧
    FifoGet 4 f1 (sample_item 0) = Some (f2, sample_item 1, true) ∧
    fRd f2 = true ∧
    pRd f2 = pWr f2 ∧
    pRd f2 = (pRd fresh + 1) mod 4.
Proof.
  assert (Hwf : wf 4 fresh) by (unfold wf; simpl; lia).
  split; [lia |]. split; [exact Hwf |].
  split; [reflexivity |]. split; [reflexivity |].
  apply (put_get_round_trip 4); [lia | exact Hwf | reflexivity | reflexivity].
Defined.

Lemma full_and_empty_are_exact_witness :
  0 < 4 ∧ Z.of_nat (length (data uninitialised)) = 4 ∧
  ∃ f evs,
    run 4 (sample_item 0) sample_ops (FifoInit 0 uninitialised).1 =
      Some (f, evs) ∧
    0 ≤ held evs ≤ 4 ∧
    (held evs = 4 → FifoPut 4 f (sample_item 7) = Some (f, false)) ∧
    (held evs < 4 → ∃ f', FifoPut 4 f (sample_item 7) = Some (f', true)) ∧
    (held evs = 0 →
     FifoGet 4 f (sample_item 7) = Some (f, sample_item 7, false)) ∧
    (0 < held evs →
     ∃ f' x, FifoGet 4 f (sample_item 7) = Some (f', x, true)).
Proof.
  split; [lia |]. split; [reflexivity |].
  apply (full_and_empty_are_exact 4); [lia | reflexivity].
Defined.

Lemma entry_name_stored_witness :
  0 ≤ 6 ≤ 255 ∧
  Z.of_nat (length (leftover 20)) = NNAMESIZE ∧
  Z.of_nat (length (Name (sample_item 0))) = NNAMESIZE ∧
  ∃ written name,
    snprintf (leftover 20) (NNAMESIZE - 1) (entry_name_text 6) =
      Some written ∧
    strncpy (Name (sample_item 0)) written NNAMESIZE = Some name ∧
    name = entry_name_text 6 ++
           replicate (Z.to_nat NNAMESIZE - length (entry_name_text 6)) x00 ∧
    Z.of_nat (length name) = NNAMESIZE ∧
    c_string name = Some (entry_name_text 6).
Proof.
  split; [lia |]. split; [reflexivity |]. split; [reflexivity |].
  apply (entry_name_stored 6); [lia | reflexivity | reflexivity].
Defined.


Lemma hexDump_layout_witness :
  0 < 38 ≤ Z.of_nat (length sample_region) ∧ 38 < 2 ^ 32 ∧
  length (leftover 17) = 17%nat ∧
  hexDump (Some (entry_name_text 1)) sample_region 38 (leftover 17) =
    Some (dump_head (Some (entry_name_text 1)) ++
          dump_rows (take (Z.to_nat 38) sample_region)).
Proof.
  assert (Hlen : 0 < 38 ≤ Z.of_nat (length sample_region)) by (simpl; lia).
  assert (Hu32 : 38 < 2 ^ 32) by reflexivity.
  split; [exact Hlen |]. split; [exact Hu32 |]. split; [reflexivity |].
  apply hexDump_layout; [exact Hlen | exact Hu32 | reflexivity].
Defined.

Lemma hexDump_leftovers_witness :
  (0 < 3 ≤ Z.of_nat (length sample_region) ∧ 3 < 2 ^ 32 ∧
   length (leftover 17) = 17%nat ∧ length (replicate 17 x41) = 17%nat ∧
   hexDump None sample_region 3 (leftover 17) =
     hexDump None sample_region 3 (replicate 17 x41) ∧
   is_Some (hexDump None sample_region 3 (leftover 17))) ∧
  (no_nul [x41; x42] ∧
   hexDump None sample_region 0 ([x41; x42] ++ x00 :: leftover 14) =
     Some (dump_head None ++ [" "; " "]%byte ++ [x41; x42] ++ [x0a])) ∧
  (no_nul (leftover 17) ∧ hexDump None sample_region 0 (leftover 17) = None).
Proof.
  destruct (hexDump_leftovers None sample_region)
    as (Hsame & Hprinted & Hnone).
  assert (Hlen : 0 < 3 ≤ Z.of_nat (length sample_region)) by (simpl; lia).
  assert (Hu32 : 3 < 2 ^ 32) by reflexivity.
  assert (Htext : no_nul [x41; x42]) by (by repeat constructor).
  assert (Hbuff : no_nul (leftover 17)) by (by repeat constructor).
  split; [| split].
  - split; [exact Hlen |]. split; [exact Hu32 |].
    split; [reflexivity |]. split; [reflexivity |].
    apply Hsame; [exact Hlen | exact Hu32 | reflexivity | reflexivity].
  - split; [exact Htext |]. apply Hprinted. exact Htext.
  - split; [exact Hbuff |]. apply Hnone. exact Hbuff.
Defined.

Lemma dump_title_cut_witness :
  0 ≤ 2147356212 < 2 ^ 32 ∧ Z.of_nat (length (leftover 40)) = NMSGLEN ∧
  ∃ msg,
    snprintf (leftover 40) (NMSGLEN - 1) (dump_title_text 2147356212) =
      Some msg ∧
    c_string msg =
      Some (["["; "D"; "E"; "B"; "U"; "G"; "]"; ":"; " "; "F"; "I"; "F"; "O";
             " "; "("; "s"; "t"; "a"; "r"; "t"; " "; "a"; "d"; "d"; "r"; "e";
             "s"; "s"; " "]%byte ++ fmt_0X 8 2147356212 ++ [")"]%byte).
Proof.
  assert (Haddr : 0 ≤ 2147356212 < 2 ^ 32) by (split; [lia | reflexivity]).
  split; [exact Haddr |]. split; [reflexivity |].
  apply dump_title_cut; [exact Haddr | reflexivity].
Defined.
